(** * ArabicG2P: the grapheme-to-phoneme pipeline of [arabic_g2p.py]

    A shallow embedding of class [ArabicG2P]: the transliteration and symbol
    tables, [arabic_to_buckwalter], [buckwalter_to_ipa_phoneme],
    [preprocess_utterance], [process_word_simple] and [process_utterance],
    followed by the properties of the pipeline.

    A Python [str] is a sequence of Unicode code points; it is modelled as a
    list of code points ([N]).  The Python built-ins the class relies on
    ([str.replace], [re.sub] on the six fixed patterns, [str.split],
    [str.strip], [str.join], [dict] lookup) are embedded in module [Py]. *)

From Stdlib Require Import List NArith ZArith Bool Lia Ascii String DecimalString.
Import ListNotations.

(* ================================================================== *)
(** ** Python primitives *)

Module Py.

Definition char := N.
Definition str := list char.

(** ASCII literals: [lit "abc"] is the Python string ['abc']. *)
Definition ch (a : ascii) : char := N_of_ascii a.
Definition lit (x : string) : str := map N_of_ascii (list_ascii_of_string x).

Fixpoint str_eqb (a b : str) : bool :=
  match a, b with
  | [], [] => true
  | x :: a', y :: b' => N.eqb x y && str_eqb a' b'
  | _, _ => false
  end.

(** [c in l] for a list of characters, [w in l] for a list of strings. *)
Definition char_in (c : char) (l : list char) : bool := existsb (N.eqb c) l.
Definition str_in (w : str) (l : list str) : bool := existsb (str_eqb w) l.

(** A dict literal, as its items in source order; [d.get(k)]. *)
Definition dict (K V : Type) := list (K * V).

Fixpoint get {K V} (eqb : K -> K -> bool) (d : dict K V) (k : K) : option V :=
  match d with
  | [] => None
  | (k', v) :: d' => if eqb k k' then Some v else get eqb d' k
  end.

(** [s.startswith(p)] *)
Fixpoint startswith (p s : str) : bool :=
  match p, s with
  | [], _ => true
  | x :: p', y :: s' => N.eqb x y && startswith p' s'
  | _ :: _, [] => false
  end.

(** Left-to-right, non-overlapping rewriting, the scan shared by
    [str.replace] and [re.sub]: at each position not inside a previous
    match, [m] looks at the rest of the string and either reports a match
    (its length [n >= 1] and the text that replaces it) or the character is
    copied.  [skip] counts the characters of the current match still to be
    passed over. *)
Fixpoint rewrite_scan (m : str -> option (nat * str)) (skip : nat) (s : str) : str :=
  match s with
  | [] => []
  | c :: s' =>
      match skip with
      | S k => rewrite_scan m k s'
      | O =>
          match m s with
          | Some (n, out) => out ++ rewrite_scan m (pred n) s'
          | None => c :: rewrite_scan m 0 s'
          end
      end
  end.

(** [s.replace(old, new)].  With an empty [old], Python inserts [new] before
    every character and at the end. *)
Definition replace (old new s : str) : str :=
  match old with
  | [] => new ++ flat_map (fun c => c :: new) s
  | _ :: _ =>
      rewrite_scan
        (fun r => if startswith old r then Some (List.length old, new) else None) 0 s
  end.

(** The regular expressions of [preprocess_utterance]: an optional [^]
    anchor followed by atoms that each match one character, either a literal
    or a parenthesised negated class [([^...])], which is a capture group.  A
    negated class matches every character outside it, newline included. *)
Inductive atom :=
| Lit (c : char)
| Group (excluded : list char).

Record regex := { anchored : bool; atoms : list atom }.

Definition atom_match (a : atom) (c : char) : bool :=
  match a with
  | Lit c' => N.eqb c c'
  | Group ex => negb (char_in c ex)
  end.

(** Match the atoms at the head of [s]; on success the characters captured
    by the groups, in order. *)
Fixpoint match_here (p : list atom) (s : str) : option (list char) :=
  match p with
  | [] => Some []
  | a :: p' =>
      match s with
      | [] => None
      | c :: s' =>
          if atom_match a c then
            match match_here p' s' with
            | Some g => Some (match a with Group _ => c :: g | Lit _ => g end)
            | None => None
            end
          else None
      end
  end.

(** Replacement templates: literal characters and back-references [\n]. *)
Inductive titem :=
| TLit (c : char)
| TRef (n : nat).

Definition expand (t : list titem) (groups : list char) : str :=
  flat_map (fun i =>
              match i with
              | TLit c => [c]
              | TRef n => match nth_error groups (pred n) with
                          | Some c => [c]
                          | None => []
                          end
              end) t.

Definition re_match (r : regex) (t : list titem) (s : str) : option (nat * str) :=
  match match_here (atoms r) s with
  | Some g => Some (List.length (atoms r), expand t g)
  | None => None
  end.

(** [re.sub(r, t, s)] without flags: an anchored pattern can only match at
    the start of the string. *)
Definition re_sub (r : regex) (t : list titem) (s : str) : str :=
  if anchored r then
    match re_match r t s with
    | Some (n, out) => out ++ skipn n s
    | None => s
    end
  else rewrite_scan (re_match r t) 0 s.

(** [s.split(sep)] for a one-character separator: never the empty list. *)
Fixpoint split (sep : char) (s : str) : list str :=
  match s with
  | [] => [[]]
  | c :: s' =>
      if N.eqb c sep then [] :: split sep s'
      else match split sep s' with
           | w :: ws => (c :: w) :: ws
           | [] => [[c]]
           end
  end.

(** [sep.join(ws)] *)
Fixpoint join (sep : str) (ws : list str) : str :=
  match ws with
  | [] => []
  | [w] => w
  | w :: ws' => w ++ sep ++ join sep ws'
  end.

(** [c.isspace()]: the code points Python treats as whitespace. *)
Definition isspace (c : char) : bool :=
  ((9 <=? c) && (c <=? 13) || (28 <=? c) && (c <=? 32)
   || (c =? 0x85) || (c =? 0xA0) || (c =? 0x1680)
   || (0x2000 <=? c) && (c <=? 0x200A)
   || (c =? 0x2028) || (c =? 0x2029) || (c =? 0x202F)
   || (c =? 0x205F) || (c =? 0x3000))%N.

Fixpoint lstrip (s : str) : str :=
  match s with
  | [] => []
  | c :: s' => if isspace c then lstrip s' else s
  end.

(** [s.strip()] *)
Definition strip (s : str) : str := rev (lstrip (rev (lstrip s))).

(** Truthiness of a string: [not s] holds of the empty string only. *)
Definition falsy (s : str) : bool :=
  match s with [] => true | _ :: _ => false end.

(** Values a caller can pass, and the outcome of a call that may raise. *)
Inductive pyval :=
| PyStr (s : str)
| PyNone
| PyInt (z : Z).

Inductive exn := TypeError.

Inductive result (A : Type) :=
| Ok (a : A)
| Raise (e : exn).
Arguments Ok {A} a.
Arguments Raise {A} e.

Definition bind {A B} (r : result A) (k : A -> result B) : result B :=
  match r with
  | Ok a => k a
  | Raise e => Raise e
  end.

(** [for letter in v]: the characters of a string; [None] and integers are
    not iterable. *)
Definition iter (v : pyval) : result str :=
  match v with
  | PyStr s => Ok s
  | PyNone | PyInt _ => Raise TypeError
  end.

(** [try: body / except Exception: return handler] *)
Definition try_except {A} (body : result A) (handler : A) : A :=
  match body with
  | Ok a => a
  | Raise _ => handler
  end.

End Py.

Import Py.

(* ================================================================== *)
(** ** class ArabicG2P *)

Module ArabicG2P.

(** [self.arabic_to_buckw_dict]: Arabic code point to Buckwalter letter. *)
Definition arabic_to_buckw_dict : dict char char :=
  [ (0x0628, ch "b"); (0x0630, ch "*"); (0x0637, ch "T"); (0x0645, ch "m");
    (0x062a, ch "t"); (0x0631, ch "r"); (0x0638, ch "Z"); (0x0646, ch "n");
    (0x062b, ch "^"); (0x0632, ch "z"); (0x0639, ch "E"); (0x0647, ch "h");
    (0x062c, ch "j"); (0x0633, ch "s"); (0x063a, ch "g"); (0x062d, ch "H");
    (0x0642, ch "q"); (0x0641, ch "f"); (0x062e, ch "x"); (0x0635, ch "S");
    (0x0634, ch "$"); (0x062f, ch "d"); (0x0636, ch "D"); (0x0643, ch "k");
    (0x0623, ch ">"); (0x0621, ch "'"); (0x0626, ch "}"); (0x0624, ch "&");
    (0x0625, ch "<"); (0x0622, ch "|"); (0x0627, ch "A"); (0x0649, ch "Y");
    (0x0629, ch "p"); (0x064a, ch "y"); (0x0644, ch "l"); (0x0648, ch "w");
    (0x064b, ch "F"); (0x064c, ch "N"); (0x064d, ch "K"); (0x064e, ch "a");
    (0x064f, ch "u"); (0x0650, ch "i"); (0x0651, ch "~"); (0x0652, ch "o") ]%N.

(** Code points of the IPA letters used by the symbol table. *)
Definition h_bar : char := 0x0127%N.        (* voiceless pharyngeal fricative *)
Definition esh : char := 0x0283%N.          (* sh *)
Definition pharyngealized : char := 0x02E4%N. (* emphatic mark *)
Definition ayn : char := 0x0295%N.          (* voiced pharyngeal fricative *)
Definition gamma : char := 0x0263%N.        (* gh *)
Definition glottal : char := 0x0294%N.      (* glottal stop *)
Definition long : char := 0x02D0%N.         (* length mark *)
Definition small_I : char := 0x026A%N.
Definition upsilon : char := 0x028A%N.
Definition script_a : char := 0x0251%N.

(** [self.buckwalter_to_ipa]: Buckwalter phoneme unit to IPA symbol. *)
Definition buckwalter_to_ipa : dict str str :=
  [ (lit "b", lit "b"); (lit "t", lit "t"); (lit "^", lit "s");
    (lit "j", lit "g");
    (lit "H", [h_bar]); (lit "x", lit "x"); (lit "d", lit "d");
    (lit "*", lit "z");
    (lit "r", lit "r"); (lit "z", lit "z"); (lit "s", lit "s");
    (lit "$", [esh]);
    (lit "S", [ch "s"; pharyngealized]); (lit "D", [ch "d"; pharyngealized]);
    (lit "T", [ch "t"; pharyngealized]); (lit "Z", [ch "z"; pharyngealized]);
    (lit "E", [ayn]);
    (lit "g", [gamma]);
    (lit "f", lit "f"); (lit "q", lit "q"); (lit "k", lit "k"); (lit "l", lit "l");
    (lit "m", lit "m"); (lit "n", lit "n"); (lit "h", lit "h"); (lit "w", lit "w");
    (lit "y", lit "j");
    (lit ">", [glottal]); (lit "<", [glottal]); (lit "'", [glottal]);
    (lit "}", [glottal]); (lit "&", [glottal]);
    (lit "|", [glottal]);
    (lit "p", lit "t");
    (lit "a", lit "a"); (lit "i", lit "i"); (lit "u", lit "u");
    (lit "aa", [ch "a"; long]); (lit "A", [ch "a"; long]); (lit "Y", [ch "a"; long]);
    (lit "ii", [ch "i"; long]); (lit "uu", [ch "u"; long]);
    (lit "i0", lit "i"); (lit "i1", lit "i");
    (lit "u0", lit "u"); (lit "u1", lit "u");
    (lit "ii0", [ch "i"; long]); (lit "ii1", [ch "i"; long]);
    (lit "uu0", [ch "u"; long]); (lit "uu1", [ch "u"; long]);
    (lit "I0", [small_I]); (lit "I1", [small_I]);
    (lit "U0", [upsilon]); (lit "U1", [upsilon]);
    (lit "II0", [small_I; long]); (lit "II1", [small_I; long]);
    (lit "UU0", [upsilon; long]); (lit "UU1", [upsilon; long]);
    (lit "AA", [script_a; long]) ].

(** [self.unambiguousConsonantMap] *)
Definition unambiguousConsonantMap : dict char str :=
  [ (ch "b", lit "b"); (ch "*", lit "*"); (ch "T", lit "T"); (ch "m", lit "m");
    (ch "t", lit "t"); (ch "r", lit "r"); (ch "Z", lit "Z"); (ch "n", lit "n");
    (ch "^", lit "^"); (ch "z", lit "z"); (ch "E", lit "E"); (ch "h", lit "h");
    (ch "j", lit "j"); (ch "s", lit "s"); (ch "g", lit "g"); (ch "H", lit "H");
    (ch "q", lit "q"); (ch "f", lit "f"); (ch "x", lit "x"); (ch "S", lit "S");
    (ch "$", lit "$"); (ch "d", lit "d"); (ch "D", lit "D"); (ch "k", lit "k");
    (ch ">", lit "<"); (ch "'", lit "<"); (ch "}", lit "<"); (ch "&", lit "<");
    (ch "<", lit "<") ].

(** [self.vowelMap] *)
Definition vowelMap : dict char str :=
  [ (ch "A", lit "aa"); (ch "Y", lit "aa"); (ch "a", lit "a");
    (ch "i", lit "i"); (ch "u", lit "u") ].

(** [self.consonants] *)
Definition consonants : list char :=
  [ ch ">"; ch "<"; ch "}"; ch "&"; ch "'"; ch "b"; ch "t"; ch "^"; ch "j";
    ch "H"; ch "x"; ch "d"; ch "*"; ch "r"; ch "z"; ch "s"; ch "$"; ch "S";
    ch "D"; ch "T"; ch "Z"; ch "E"; ch "g"; ch "f"; ch "q"; ch "k"; ch "l";
    ch "m"; ch "n"; ch "h"; ch "|" ].

Definition sil : str := lit "sil".
Definition space : char := ch " ".
Definition plus : char := ch "+".
Definition tatweel : char := 0x0640%N.

(** [arabic_to_buckwalter]: one output character per input character. *)
Definition arabic_to_buckwalter (word : str) : str :=
  map (fun letter =>
         match get N.eqb arabic_to_buckw_dict letter with
         | Some b => b
         | None => letter
         end) word.

(** [buckwalter_to_ipa_phoneme]: exact entry, else a doubled character
    mapped through its single entry and doubled, else the unit itself. *)
Definition base_phoneme (c : char) : str :=
  match get str_eqb buckwalter_to_ipa [c] with
  | Some v => v
  | None => [c]
  end.

Definition buckwalter_to_ipa_phoneme (buckwalter_phoneme : str) : str :=
  match get str_eqb buckwalter_to_ipa buckwalter_phoneme with
  | Some v => v
  | None =>
      match buckwalter_phoneme with
      | [a; b] =>
          if N.eqb a b then base_phoneme a ++ base_phoneme a
          else buckwalter_phoneme
      | _ => buckwalter_phoneme
      end
  end.

(** The patterns and templates of the [re.sub] calls. *)
Definition re_Ai : regex := {| anchored := false; atoms := [Lit (ch "A"); Lit (ch "i")] |}.
Definition re_Aa : regex := {| anchored := false; atoms := [Lit (ch "A"); Lit (ch "a")] |}.
Definition re_Au : regex := {| anchored := false; atoms := [Lit (ch "A"); Lit (ch "u")] |}.
Definition re_initial_hamza : regex :=
  {| anchored := true;
     atoms := [Lit (ch ">"); Group [ch "a"; ch "u"; ch "A"; ch "w"]] |}.
Definition re_word_hamza : regex :=
  {| anchored := false;
     atoms := [Lit space; Lit (ch ">"); Group [ch "a"; ch "u"; ch "A"; ch "w"; space]] |}.
Definition re_hamza_below : regex :=
  {| anchored := false; atoms := [Lit (ch "<"); Group [ch "i"]] |}.

Definition tlit (x : string) : list titem :=
  map (fun a => TLit (N_of_ascii a)) (list_ascii_of_string x).

(** [preprocess_utterance]: the rewrite rules in source order, then the
    split on the space character. *)
Definition normalise (utterance : str) : str :=
  let utterance := replace (lit "AF") (lit "F") utterance in
  let utterance := replace [tatweel] [] utterance in
  let utterance := replace (lit "o") [] utterance in
  let utterance := replace (lit "aA") (lit "A") utterance in
  let utterance := replace (lit "aY") (lit "Y") utterance in
  let utterance := replace (lit " A") (lit " ") utterance in
  let utterance := replace (lit "F") (lit "an") utterance in
  let utterance := replace (lit "N") (lit "un") utterance in
  let utterance := replace (lit "K") (lit "in") utterance in
  let utterance := replace (lit "|") (lit ">A") utterance in
  let utterance := re_sub re_Ai (tlit "<i") utterance in
  let utterance := re_sub re_Aa (tlit ">a") utterance in
  let utterance := re_sub re_Au (tlit ">u") utterance in
  let utterance := re_sub re_initial_hamza (tlit ">a" ++ [TRef 1]) utterance in
  let utterance := re_sub re_word_hamza (tlit " >a" ++ [TRef 1]) utterance in
  let utterance := re_sub re_hamza_below (tlit "<i" ++ [TRef 1]) utterance in
  utterance.

Definition preprocess_utterance (utterance : str) : list str :=
  split space (normalise utterance).

(** The two-character units tested before the single-character tables. *)
Definition two_char_units : list str :=
  [lit "aa"; lit "ii"; lit "uu"; lit "AA"; lit "II"; lit "UU"].

(** The single-character branch of the tokenizer loop: the units appended
    for [char] (none when it is in no table). *)
Definition single_char (char : char) : list str :=
  match get N.eqb unambiguousConsonantMap char with
  | Some u => [u]
  | None =>
      match get N.eqb vowelMap char with
      | Some u => [u]
      | None =>
          if char_in char consonants || char_in char [ch "w"; ch "y"]
          then [[char]] else []
      end
  end.

(** The [while i < len(buckwalter_word)] loop of [process_word_simple] as
    it is written, with the cursor [i] and the list [phonemes] as state.
    Each iteration moves the cursor forward, so [len(buckwalter_word)]
    iterations are enough; [None] when the fuel runs out first. *)
Fixpoint tokenizer_loop (fuel : nat) (buckwalter_word : str) (i : nat)
    (phonemes : list str) : option (list str) :=
  if Nat.leb (List.length buckwalter_word) i then Some phonemes
  else
    match fuel with
    | O => None
    | S fuel' =>
        let char := nth i buckwalter_word 0%N in
        let two_char := firstn 2 (skipn i buckwalter_word) in
        if Nat.ltb i (List.length buckwalter_word - 1)
           && str_in two_char two_char_units
        then tokenizer_loop fuel' buckwalter_word (i + 2) (phonemes ++ [two_char])
        else tokenizer_loop fuel' buckwalter_word (i + 1)
               (phonemes ++ single_char char)
    end.

(** The same loop by recursion on the text from the cursor on,
    [buckwalter_word[i:]]; [tokenizer_loop_extract_phonemes] below shows
    that the two agree. *)
Fixpoint extract_phonemes (rest : str) : list str :=
  match rest with
  | [] => []
  | char :: after =>
      match after with
      | next :: after2 =>
          if str_in [char; next] two_char_units
          then [char; next] :: extract_phonemes after2
          else single_char char ++ extract_phonemes after
      | [] => single_char char ++ extract_phonemes after
      end
  end.

(** [process_word_simple] *)
Definition process_word_simple (word : str) : list str :=
  if falsy word || str_in word [lit "-"; sil] then [sil]
  else
    let buckwalter_word := arabic_to_buckwalter word in
    let phonemes := extract_phonemes buckwalter_word in
    let ipa_phonemes :=
      filter (fun p => negb (falsy p)) (map buckwalter_to_ipa_phoneme phonemes) in
    match ipa_phonemes with
    | [] => [sil]
    | _ :: _ => ipa_phonemes
    end.

(** The list [phonemes] built by the loop of [process_utterance]: one list
    of symbols per word. *)
Definition word_phonemes (word : str) : list str :=
  if str_in word [lit "-"; sil] || falsy (strip word) then [sil]
  else process_word_simple word.

Definition utterance_phonemes (utterance : str) : list (list str) :=
  let buckwalter_text := arabic_to_buckwalter utterance in
  let words := preprocess_utterance buckwalter_text in
  map word_phonemes words.

(** [' + '.join(' '.join(phones) for phones in phonemes)] *)
Definition final_sequence (phonemes : list (list str)) : str :=
  join (lit " + ") (map (join (lit " ")) phonemes).

(** The body of the [try] block, and [process_utterance] itself.  The
    handler also prints a diagnostic line, which is not part of the value
    returned. *)
Definition process_utterance_body (utterance : pyval) : result str :=
  bind (iter utterance)
       (fun text => Ok (final_sequence (utterance_phonemes text))).

Definition process_utterance (utterance : pyval) : str :=
  try_except (process_utterance_body utterance) sil.

(** The Arabic word of the worked example, U+0634 U+0643 U+0631 U+0627. *)
Definition shukran : str := [0x0634; 0x0643; 0x0631; 0x0627]%N.

End ArabicG2P.

Import ArabicG2P.

(* ================================================================== *)
(** ** Vocabulary of the properties *)

(** The short vowel letters [a], [i], [u]. *)
Definition short_vowels : list char := [ch "a"; ch "i"; ch "u"].

(** [letter in self.arabic_to_buckw_dict] *)
Definition is_arabic_key (c : char) : bool :=
  match get N.eqb arabic_to_buckw_dict c with
  | Some _ => true
  | None => false
  end.

(** A word none of whose characters is a key of the transliteration
    table. *)
Definition non_arabic (w : str) : bool :=
  forallb (fun c => negb (is_arabic_key c)) w.

(** The body of the loop of [arabic_to_buckwalter]. *)
Definition translit (letter : char) : char :=
  match get N.eqb arabic_to_buckw_dict letter with
  | Some b => b
  | None => letter
  end.

(** The literal characters of a replacement template satisfy [q]. *)
Definition template_forallb (q : char -> bool) (t : list titem) : bool :=
  forallb (fun i => match i with TLit c => q c | TRef _ => true end) t.

(** Number of occurrences of a character in a string. *)
Definition count_char (c : char) (s : str) : nat :=
  List.length (filter (N.eqb c) s).

(** Number of positions of [s] at which [sub] occurs. *)
Fixpoint count_sub (sub s : str) : nat :=
  match s with
  | [] => 0
  | _ :: s' => (if startswith sub s then 1 else 0) + count_sub sub s'
  end.

(** [s.count(sub)] for a non-empty [sub]: occurrences found left to right
    without overlap. *)
Fixpoint count_scan (sub : str) (skip : nat) (s : str) : nat :=
  match s with
  | [] => 0
  | _ :: s' =>
      match skip with
      | S k => count_scan sub k s'
      | O =>
          if startswith sub s
          then S (count_scan sub (pred (List.length sub)) s')
          else count_scan sub 0 s'
      end
  end.

Definition count (sub s : str) : nat := count_scan sub 0 s.

(** The word separator of the output. *)
Definition separator : str := lit " + ".

(** The string begins with [+]. *)
Definition starts_plus (s : str) : bool :=
  match s with
  | c :: _ => N.eqb c plus
  | [] => false
  end.

Definition no_plus (s : str) : bool := forallb (fun c => negb (N.eqb c plus)) s.
Definition no_space (s : str) : bool := forallb (fun c => negb (N.eqb c space)) s.

(** A symbol that is not empty and holds neither whitespace nor [+]. *)
Definition clean_char (c : char) : bool := negb (isspace c) && negb (N.eqb c plus).
Definition clean_symbol (sym : str) : bool :=
  negb (falsy sym) && forallb clean_char sym.

(** Every unit the tokenizer can append to [phonemes]. *)
Definition all_units : list str :=
  two_char_units ++ map snd unambiguousConsonantMap ++ map snd vowelMap
  ++ map (fun c => [c]) (consonants ++ [ch "w"; ch "y"]).

(** The symbols of an utterance in order, with the token [+] between the
    words. *)
Fixpoint tokens (phonemes : list (list str)) : list str :=
  match phonemes with
  | [] => []
  | [phones] => phones
  | phones :: rest => phones ++ [[plus]] ++ tokens rest
  end.

(* ================================================================== *)
(** ** Vocabulary of the further properties *)

(** The Buckwalter letters of the hamza seats, and the Arabic letters they
    transliterate. *)
Definition hamza_letters : list char :=
  [ch ">"; ch "'"; ch "}"; ch "&"; ch "<"].
Definition arabic_hamza_letters : list char :=
  [0x0623; 0x0621; 0x0626; 0x0624; 0x0625]%N.

(** The characters some branch of the tokenizer loop can act on: the keys of
    the two maps, the consonant list, [w] and [y], and [I] and [U], which
    only count as halves of the units [II] and [UU]. *)
Definition classified_chars : list char :=
  map fst unambiguousConsonantMap ++ map fst vowelMap ++ consonants
  ++ [ch "w"; ch "y"] ++ [ch "I"; ch "U"].

(** A character the tokenizer passes over wherever it stands. *)
Definition skipped (c : char) : bool := negb (char_in c classified_chars).

(** The characters no normalised text contains. *)
Definition removed_chars : list char :=
  [tatweel; ch "o"; ch "F"; ch "N"; ch "K"; ch "|"].

(** A character no rewrite rule looks for. *)
Definition plain (c : char) : bool :=
  negb (char_in c [ch "A"; ch "F"; ch "N"; ch "K"; ch "o"; tatweel; ch "|";
                   ch ">"; ch "<"; ch "Y"]).

(** A character outside the rules that look across a word boundary or
    produce a letter such a rule looks for. *)
Definition boundary_free (c : char) : bool :=
  negb (char_in c [ch "A"; ch ">"; ch "<"; ch "|"]).

(** The literal characters of a pattern satisfy [q]. *)
Definition literals_forallb (q : char -> bool) (p : list atom) : bool :=
  forallb (fun a => match a with Lit c => q c | Group _ => true end) p.

(** Every symbol [process_utterance] can put in its output. *)
Definition emitted_symbols : list str :=
  [sil; lit "II"; lit "UU"] ++ map snd buckwalter_to_ipa.

(* ================================================================== *)
(** ** The dataset scripts: [debug_dataset.py] and [quick_audio_fix.py]

    Both scripts read the lines of a manifest ([audio_path|text|speaker_id])
    and test each audio file.  The lines are what [f.readlines()] returned;
    the file system and the audio library are the two functions
    [path_exists] ([os.path.exists]) and [sf_read] ([soundfile.read]), taken
    to answer the same throughout a run.  What the scripts print is left
    out; what they return, raise and write is modelled. *)

Module Audio.

(** What [sf.read(path)] does: the frames read and the sample rate, or the
    message of the exception it raises. *)
Inductive read_result :=
| ReadOk (frames : nat) (samplerate : Z)
| ReadRaises (message : str).

Inductive error := ZeroDivisionError.

Inductive outcome (A : Type) :=
| Returned (a : A)
| Raised (e : error).
Arguments Returned {A} a.
Arguments Raised {A} e.

(** [str(n)] for an integer. *)
Definition str_of_nat (n : nat) : str := lit (NilZero.string_of_uint (Nat.to_uint n)).
Definition str_of_Z (z : Z) : str := lit (NilZero.string_of_int (Z.to_int z)).

Definition newline : char := 10%N.
Definition tab : char := 9%N.

(** [parts[0]] of [line.split('|')], the audio path of a manifest line. *)
Definition audio_path_of (line : str) : str := nth 0 (split (ch "|") line) [].

(** The message [f"OK - {len(wave)} samples, {sr} Hz"]. *)
Definition ok_message (frames : nat) (sr : Z) : str :=
  lit "OK - " ++ str_of_nat frames ++ lit " samples, " ++ str_of_Z sr ++ lit " Hz".

End Audio.

Import Audio.

Module DebugDataset.

Section Script.

Variable path_exists : str -> bool.
Variable sf_read : str -> read_result.

(** [check_audio_file] of [debug_dataset.py] *)
Definition check_audio_file (file_path : str) : bool * str :=
  match sf_read file_path with
  | ReadOk frames sr =>
      if Nat.eqb frames 0 then (false, lit "Empty audio file")
      else (true, ok_message frames sr)
  | ReadRaises message => (false, message)
  end.

(** The two lists the loop of [check_dataset_files] fills. *)
Record tally := {
  corrupted_files : list (str * str);
  checked_files : list (str * bool * str)
}.

(** One iteration of the loop. *)
Definition visit (st : tally) (line : str) : tally :=
  if falsy (strip line) then st
  else
    let parts := split (ch "|") (strip line) in
    if Nat.ltb (List.length parts) 1 then st
    else
      let audio_path := nth 0 parts [] in
      if negb (path_exists audio_path) then
        {| corrupted_files :=
             corrupted_files st ++ [(audio_path, lit "File not found")];
           checked_files := checked_files st |}
      else
        let (is_valid, message) := check_audio_file audio_path in
        {| corrupted_files :=
             if negb is_valid
             then corrupted_files st ++ [(audio_path, message)]
             else corrupted_files st;
           checked_files :=
             checked_files st ++ [(audio_path, is_valid, message)] |}.

(** [lines[:max_check]]: a negative bound counts from the end. *)
Definition lines_upto (max_check : Z) (lines : list str) : list str :=
  if (0 <=? max_check)%Z then firstn (Z.to_nat max_check) lines
  else firstn (List.length lines - Z.to_nat (- max_check)) lines.

Definition run_loop (lines : list str) (max_check : Z) : tally :=
  fold_left visit (lines_upto max_check lines)
            {| corrupted_files := []; checked_files := [] |}.

(** [check_dataset_files]: the summary divides by [len(checked_files)]
    before the function returns [corrupted_files]. *)
Definition check_dataset_files (lines : list str) (max_check : Z)
  : outcome (list (str * str)) :=
  let st := run_loop lines max_check in
  if Nat.eqb (List.length (checked_files st)) 0 then Raised ZeroDivisionError
  else Returned (corrupted_files st).

(** A stripped line whose audio file is there, one whose file is missing,
    and one whose file is there but is not read as valid. *)
Definition found (line : str) : bool :=
  negb (falsy line) && path_exists (audio_path_of line).

Definition missing (line : str) : bool :=
  negb (falsy line) && negb (path_exists (audio_path_of line)).

Definition unreadable (line : str) : bool :=
  found line && negb (fst (check_audio_file (audio_path_of line))).

End Script.

End DebugDataset.

Module QuickAudioFix.

Section Script.

Variable path_exists : str -> bool.
Variable sf_read : str -> read_result.

(** [check_audio_file] of [quick_audio_fix.py] *)
Definition check_audio_file (file_path : str) : bool * str :=
  match sf_read file_path with
  | ReadOk frames sr =>
      if Nat.eqb frames 0 then (false, lit "Empty audio file")
      else if (sr <=? 0)%Z then (false, lit "Invalid sample rate")
      else (true, ok_message frames sr)
  | ReadRaises message => (false, message)
  end.

(** The state of the loop of [clean_dataset]. *)
Record tally := {
  corrupted_files : list (nat * str * str);
  valid_lines : list str;
  total_lines : nat
}.

(** One iteration, for the line of index [i]. *)
Definition visit (i : nat) (line : str) (st : tally) : tally :=
  let total := total_lines st + 1 in
  let line := strip line in
  if falsy line then
    {| corrupted_files := corrupted_files st; valid_lines := valid_lines st;
       total_lines := total |}
  else
    let parts := split (ch "|") line in
    if Nat.ltb (List.length parts) 1 then
      {| corrupted_files := corrupted_files st; valid_lines := valid_lines st;
         total_lines := total |}
    else
      let audio_path := nth 0 parts [] in
      if negb (path_exists audio_path) then
        {| corrupted_files :=
             corrupted_files st ++ [(i + 1, audio_path, lit "File not found")];
           valid_lines := valid_lines st; total_lines := total |}
      else
        let (is_valid, message) := check_audio_file audio_path in
        if negb is_valid then
          {| corrupted_files :=
               corrupted_files st ++ [(i + 1, audio_path, message)];
             valid_lines := valid_lines st; total_lines := total |}
        else
          {| corrupted_files := corrupted_files st;
             valid_lines := valid_lines st ++ [line]; total_lines := total |}.

(** [for i, line in enumerate(lines)], from index [i] on. *)
Fixpoint run_loop (i : nat) (lines : list str) (st : tally) : tally :=
  match lines with
  | [] => st
  | line :: rest => run_loop (S i) rest (visit i line st)
  end.

(** What a call leaves behind: the lines written to the cleaned file, the
    lines written to the list of corrupted files when it is written, and
    the value returned or the exception raised. *)
Record effect := {
  cleaned_file : list str;
  corrupted_list : option (list str);
  result : outcome bool
}.

(** ["Line\tFile\tError\n"] and one row of the list. *)
Definition corrupted_header : str :=
  lit "Line" ++ [tab] ++ lit "File" ++ [tab] ++ lit "Error" ++ [newline].

Definition corrupted_row (entry : nat * str * str) : str :=
  let '(line_num, file_path, error) := entry in
  str_of_nat line_num ++ [tab] ++ file_path ++ [tab] ++ error ++ [newline].

(** [clean_dataset]: the cleaned file is written first; the summary then
    divides by [total_lines]; the list of corrupted files is written last. *)
Definition clean_dataset (lines : list str) : effect :=
  let st := run_loop 0 lines
              {| corrupted_files := []; valid_lines := []; total_lines := 0 |} in
  let written := map (fun line => line ++ [newline]) (valid_lines st) in
  if Nat.eqb (total_lines st) 0 then
    {| cleaned_file := written; corrupted_list := None;
       result := Raised ZeroDivisionError |}
  else
    {| cleaned_file := written;
       corrupted_list :=
         match corrupted_files st with
         | [] => None
         | _ :: _ =>
             Some (corrupted_header :: map corrupted_row (corrupted_files st))
         end;
       result := Returned (Nat.eqb (List.length (corrupted_files st)) 0) |}.

(** A stripped line that [clean_dataset] keeps, and one it reports. *)
Definition keeps (line : str) : bool :=
  negb (falsy line) && path_exists (audio_path_of line)
  && fst (check_audio_file (audio_path_of line)).

Definition reports (line : str) : bool := negb (falsy line) && negb (keeps line).

End Script.

End QuickAudioFix.

(* ================================================================== *)
(** ** Facts about the primitives *)

Section Primitives.

Lemma str_eqb_eq (a b : str) : str_eqb a b = true <-> a = b.
Proof.
  revert b; induction a as [|x a IH]; intros [|y b]; simpl;
    try (split; [discriminate | congruence]); try tauto.
  rewrite andb_true_iff, N.eqb_eq, IH.
  split; [intros [-> ->]; reflexivity | intros H; injection H; auto].
Qed.

Lemma str_eqb_refl (a : str) : str_eqb a a = true.
Proof. apply str_eqb_eq; reflexivity. Qed.

Lemma str_in_In (w : str) (l : list str) : str_in w l = true <-> In w l.
Proof.
  unfold str_in; rewrite existsb_exists; split.
  - intros (x & Hx & E); apply str_eqb_eq in E; subst; assumption.
  - intros H; exists w; split; [assumption | apply str_eqb_refl].
Qed.

Lemma char_in_In (c : char) (l : list char) : char_in c l = true <-> In c l.
Proof.
  unfold char_in; rewrite existsb_exists; split.
  - intros (x & Hx & E); apply N.eqb_eq in E; subst; assumption.
  - intros H; exists c; split; [assumption | apply N.eqb_refl].
Qed.

(** A successful lookup returns one of the values of the dict. *)
Lemma get_In_values {K V} (eqb : K -> K -> bool) (d : dict K V) k v :
  get eqb d k = Some v -> In v (map snd d).
Proof.
  induction d as [|[k' v'] d IH]; simpl; [discriminate|].
  destruct (eqb k k'); [intros [= ->]; left; reflexivity | right; auto].
Qed.

Lemma join_cons2 (sep w w' : str) (ws : list str) :
  join sep (w :: w' :: ws) = w ++ sep ++ join sep (w' :: ws).
Proof. reflexivity. Qed.

(** Two-step induction on lists, the shape of the tokenizer loop. *)
Lemma list_ind2 {A} (P : list A -> Prop) :
  P [] -> (forall a, P [a]) ->
  (forall a b l, P l -> P (b :: l) -> P (a :: b :: l)) ->
  forall l, P l.
Proof.
  intros H0 H1 H2 l.
  assert (H : P l /\ forall a, P (a :: l)); [|apply H].
  induction l as [|b l [IHl IHbl]]; split; auto.
Qed.

End Primitives.

(* ================================================================== *)
(** ** The silence tokens and the worked example *)

(** C2. [process_utterance("-")], [process_utterance("sil")] and
    [process_utterance("")] each return exactly ["sil"]. *)
Theorem silence_idempotence :
  process_utterance (PyStr (lit "-")) = lit "sil" /\
  process_utterance (PyStr (lit "sil")) = lit "sil" /\
  process_utterance (PyStr []) = lit "sil".
Proof. repeat split; vm_compute; reflexivity. Qed.

(** C3. The word U+0634 U+0643 U+0631 U+0627 transliterates to [$krA],
    is one word after preprocessing, tokenizes to the units [$ k r aa],
    maps unit-wise to the symbols [esh k r a-long], and
    [process_utterance] returns these four symbols joined by spaces. *)
Theorem shukran_example :
  arabic_to_buckwalter shukran = lit "$krA" /\
  preprocess_utterance (lit "$krA") = [lit "$krA"] /\
  extract_phonemes (arabic_to_buckwalter (lit "$krA"))
    = [lit "$"; lit "k"; lit "r"; lit "aa"] /\
  map buckwalter_to_ipa_phoneme [lit "$"; lit "k"; lit "r"; lit "aa"]
    = [[esh]; lit "k"; lit "r"; [ch "a"; long]] /\
  process_word_simple (lit "$krA") = [[esh]; lit "k"; lit "r"; [ch "a"; long]] /\
  process_utterance (PyStr shukran)
    = [esh; space; ch "k"; space; ch "r"; space; ch "a"; long].
Proof. repeat split; vm_compute; reflexivity. Qed.

(* ================================================================== *)
(** ** The vowel map *)

(** The claim that every short vowel letter is sent to a two-character
    unit fails: [vowelMap] sends [a] to the one-character unit [a]. *)
Lemma short_vowel_not_lengthened :
  ~ (forall v, In v short_vowels ->
       exists u, get N.eqb vowelMap v = Some u /\ List.length u = 2).
Proof.
  intros H. destruct (H (ch "a")) as (u & Hu & Hlen).
  - left; reflexivity.
  - vm_compute in Hu. injection Hu as <-. discriminate Hlen.
Qed.

(** C4 (as the code has it). In the single-character vowel branch the
    two long-vowel letters [A] and [Y] are emitted as the two-character unit
    [aa]; each short vowel letter [a], [i], [u] is emitted as itself, a unit
    of one character. *)
Theorem vowel_branch_units (v : char) :
  (In v [ch "A"; ch "Y"] ->
     get N.eqb vowelMap v = Some (lit "aa") /\ single_char v = [lit "aa"]) /\
  (In v short_vowels ->
     get N.eqb vowelMap v = Some [v] /\ single_char v = [[v]] /\
     extract_phonemes [v] = [[v]]).
Proof.
  split; intros H; simpl in H;
    repeat (destruct H as [<- | H]; [repeat split; vm_compute; reflexivity|]);
    destruct H.
Qed.

Lemma vowel_branch_units_witness :
  (get N.eqb vowelMap (ch "A") = Some (lit "aa") /\
   single_char (ch "A") = [lit "aa"]) /\
  (get N.eqb vowelMap (ch "i") = Some [ch "i"] /\
   single_char (ch "i") = [[ch "i"]] /\
   extract_phonemes [ch "i"] = [[ch "i"]]).
Proof.
  split.
  - apply (proj1 (vowel_branch_units (ch "A"))). simpl; auto.
  - apply (proj2 (vowel_branch_units (ch "i"))). simpl; auto.
Defined.

(* ================================================================== *)
(** ** The symbol mapper *)

Lemma buckwalter_to_ipa_values_nonempty (v : str) :
  In v (map snd buckwalter_to_ipa) -> v <> [].
Proof.
  assert (H : forallb (fun v => negb (falsy v)) (map snd buckwalter_to_ipa) = true)
    by (vm_compute; reflexivity).
  rewrite forallb_forall in H. intros Hin E. subst v.
  specialize (H _ Hin). discriminate H.
Qed.

Lemma base_phoneme_nonempty (c : char) : base_phoneme c <> [].
Proof.
  unfold base_phoneme.
  destruct (get str_eqb buckwalter_to_ipa [c]) eqn:E; [|discriminate].
  eapply buckwalter_to_ipa_values_nonempty, get_In_values, E.
Qed.

Lemma buckwalter_to_ipa_phoneme_nonempty (u : str) :
  u <> [] -> buckwalter_to_ipa_phoneme u <> [].
Proof.
  intros Hu. unfold buckwalter_to_ipa_phoneme.
  destruct (get str_eqb buckwalter_to_ipa u) eqn:E.
  - eapply buckwalter_to_ipa_values_nonempty, get_In_values, E.
  - destruct u as [|a [|b [|x u]]]; try assumption.
    destruct (N.eqb a b); [|assumption].
    intros H. apply app_eq_nil in H. destruct H as [H _].
    exact (base_phoneme_nonempty a H).
Qed.

(** C8. A unit of two identical characters that is not a key of the symbol
    table is mapped to the symbol of the single character (the character
    itself when it has no entry) written twice; ["bb"] is mapped to ["bb"];
    and no non-empty unit is mapped to the empty string. *)
Theorem gemination_fallback (c : char) (u : str) :
  (get str_eqb buckwalter_to_ipa [c; c] = None ->
     buckwalter_to_ipa_phoneme [c; c]
     = match get str_eqb buckwalter_to_ipa [c] with
       | Some symbol => symbol ++ symbol
       | None => [c; c]
       end) /\
  buckwalter_to_ipa_phoneme (lit "bb") = lit "bb" /\
  (u <> [] -> buckwalter_to_ipa_phoneme u <> []).
Proof.
  split; [|split].
  - intros E. unfold buckwalter_to_ipa_phoneme. rewrite E, N.eqb_refl.
    unfold base_phoneme. destruct (get str_eqb buckwalter_to_ipa [c]); reflexivity.
  - vm_compute; reflexivity.
  - apply buckwalter_to_ipa_phoneme_nonempty.
Qed.

Lemma gemination_fallback_witness :
  buckwalter_to_ipa_phoneme (lit "ll") = lit "ll" /\
  buckwalter_to_ipa_phoneme (lit "SS")
    = [ch "s"; pharyngealized; ch "s"; pharyngealized] /\
  buckwalter_to_ipa_phoneme (lit "II") <> [].
Proof.
  split; [|split].
  - apply (proj1 (gemination_fallback (ch "l") [])). vm_compute; reflexivity.
  - apply (proj1 (gemination_fallback (ch "S") [])). vm_compute; reflexivity.
  - apply (proj2 (proj2 (gemination_fallback 0%N (lit "II")))). discriminate.
Defined.

(* ================================================================== *)
(** ** The transliterator *)

Lemma arabic_to_buckwalter_map (s : str) :
  arabic_to_buckwalter s = map translit s.
Proof. reflexivity. Qed.

(** No character the table emits is a key of the table. *)
Lemma values_not_keys (b : char) :
  In b (map snd arabic_to_buckw_dict) -> is_arabic_key b = false.
Proof.
  assert (H : forallb (fun b => negb (is_arabic_key b))
                      (map snd arabic_to_buckw_dict) = true)
    by (vm_compute; reflexivity).
  rewrite forallb_forall in H. intros Hin.
  apply negb_true_iff, H, Hin.
Qed.

Lemma translit_not_key (c : char) : is_arabic_key (translit c) = false.
Proof.
  unfold translit.
  destruct (get N.eqb arabic_to_buckw_dict c) eqn:E.
  - eapply values_not_keys, get_In_values, E.
  - unfold is_arabic_key; rewrite E; reflexivity.
Qed.

Lemma translit_fixed (c : char) : is_arabic_key c = false -> translit c = c.
Proof.
  unfold is_arabic_key, translit.
  destruct (get N.eqb arabic_to_buckw_dict c); [discriminate | reflexivity].
Qed.

Lemma arabic_to_buckwalter_not_keys (s : str) :
  non_arabic (arabic_to_buckwalter s) = true.
Proof.
  unfold non_arabic. rewrite arabic_to_buckwalter_map, forallb_forall.
  intros c Hc. apply in_map_iff in Hc. destruct Hc as (x & <- & _).
  rewrite translit_not_key; reflexivity.
Qed.

Lemma arabic_to_buckwalter_fixed (w : str) :
  non_arabic w = true -> arabic_to_buckwalter w = w.
Proof.
  unfold non_arabic. rewrite arabic_to_buckwalter_map, forallb_forall. intros H.
  induction w as [|c w IH]; simpl; [reflexivity|].
  rewrite translit_fixed, IH; [reflexivity | | ].
  - intros x Hx; apply H; right; assumption.
  - apply negb_true_iff, H; left; reflexivity.
Qed.

(* ================================================================== *)
(** ** Rewriting: what [str.replace] and [re.sub] preserve *)

Section Rewriting.

Lemma count_char_app (c : char) (a b : str) :
  count_char c (a ++ b) = count_char c a + count_char c b.
Proof. unfold count_char. rewrite filter_app, length_app. reflexivity. Qed.

Lemma count_char_firstn_skipn (c : char) (n : nat) (s : str) :
  count_char c s = count_char c (firstn n s) + count_char c (skipn n s).
Proof. rewrite <- count_char_app, firstn_skipn. reflexivity. Qed.

Lemma startswith_firstn (p s : str) :
  startswith p s = true -> firstn (List.length p) s = p.
Proof.
  revert s; induction p as [|x p IH]; intros [|y s]; simpl;
    try reflexivity; try discriminate.
  rewrite andb_true_iff, N.eqb_eq. intros [-> H]. rewrite IH; auto.
Qed.

Variable m : str -> option (nat * str).

(** A property of characters that every replacement text inherits from the
    text it is computed from is kept by the scan. *)
Lemma rewrite_scan_forallb (q : char -> bool) :
  (forall r n out, m r = Some (n, out) ->
     forallb q r = true -> forallb q out = true) ->
  forall s k, forallb q s = true -> forallb q (rewrite_scan m k s) = true.
Proof.
  intros Hm s. induction s as [|c s IH]; intros k Hs; [reflexivity|].
  pose proof Hs as Hcs. simpl in Hs. apply andb_true_iff in Hs.
  destruct Hs as [Hc Hs]. simpl. destruct k as [|k]; [|auto].
  destruct (m (c :: s)) as [[n out]|] eqn:E.
  - rewrite forallb_app, (Hm _ _ _ E Hcs). simpl. auto.
  - simpl. rewrite Hc. simpl. auto.
Qed.

(** When every match holds as many [c] as its replacement, the scan keeps
    the number of [c]. *)
Lemma rewrite_scan_count (c : char) :
  (forall r n out, m r = Some (n, out) ->
     1 <= n /\ count_char c (firstn n r) = count_char c out) ->
  forall s k, count_char c (rewrite_scan m k s) = count_char c (skipn k s).
Proof.
  intros Hm s. induction s as [|x s IH]; intros k.
  - destruct k; reflexivity.
  - simpl. destruct k as [|k]; [|apply IH].
    destruct (m (x :: s)) as [[n out]|] eqn:E.
    + destruct (Hm _ _ _ E) as [Hn Hc].
      rewrite count_char_app, IH, <- Hc.
      destruct n as [|n]; [lia|]. simpl pred.
      change (skipn n s) with (skipn (S n) (x :: s)).
      symmetry. apply count_char_firstn_skipn.
    + change (skipn 0 (x :: s)) with ([x] ++ skipn 0 s).
      change (x :: rewrite_scan m 0 s) with ([x] ++ rewrite_scan m 0 s).
      rewrite !count_char_app, IH. reflexivity.
Qed.

End Rewriting.

Section ReplaceAndSub.

Variable q : char -> bool.

Lemma replace_forallb (old new s : str) :
  forallb q new = true -> forallb q s = true ->
  forallb q (replace old new s) = true.
Proof.
  intros Hnew Hs. unfold replace. destruct old as [|x old].
  - rewrite forallb_app, Hnew. simpl.
    induction s as [|c s IH]; [reflexivity|].
    simpl in Hs. apply andb_true_iff in Hs. destruct Hs as [Hc Hs].
    simpl. rewrite Hc, forallb_app, Hnew. simpl. auto.
  - apply rewrite_scan_forallb; [|assumption].
    intros r n out E _. destruct (startswith (x :: old) r); [|discriminate].
    injection E as _ <-. assumption.
Qed.

Lemma match_here_forallb (p : list atom) (s : str) (g : list char) :
  match_here p s = Some g -> forallb q s = true -> forallb q g = true.
Proof.
  revert s g. induction p as [|a p IH]; intros s g; simpl.
  - intros [= <-] _. reflexivity.
  - destruct s as [|c s]; [discriminate|].
    destruct (atom_match a c); [|discriminate].
    destruct (match_here p s) as [g'|] eqn:E; [|discriminate].
    intros [= <-] H. simpl in H. apply andb_true_iff in H. destruct H as [Hc Hs].
    specialize (IH _ _ E Hs). destruct a; simpl; [|rewrite Hc]; assumption.
Qed.

Lemma expand_forallb (t : list titem) (g : list char) :
  template_forallb q t = true -> forallb q g = true ->
  forallb q (expand t g) = true.
Proof.
  intros Ht Hg. unfold expand. induction t as [|i t IH]; [reflexivity|].
  simpl in Ht. apply andb_true_iff in Ht. destruct Ht as [Hi Ht].
  simpl. rewrite forallb_app, (IH Ht), andb_true_r.
  destruct i as [c|n]; simpl; [rewrite Hi; reflexivity|].
  destruct (nth_error g (pred n)) as [c|] eqn:E; [|reflexivity].
  simpl. rewrite andb_true_r.
  rewrite forallb_forall in Hg. apply Hg. eapply nth_error_In, E.
Qed.

Lemma forallb_skipn (n : nat) (s : str) :
  forallb q s = true -> forallb q (skipn n s) = true.
Proof.
  rewrite !forallb_forall. intros H x Hx. apply H.
  rewrite <- (firstn_skipn n s). apply in_or_app. right. assumption.
Qed.

Lemma re_sub_forallb (r : regex) (t : list titem) (s : str) :
  template_forallb q t = true -> forallb q s = true ->
  forallb q (re_sub r t s) = true.
Proof.
  intros Ht Hs.
  assert (Hm : forall x n out, re_match r t x = Some (n, out) ->
                 forallb q x = true -> forallb q out = true).
  { intros x n out E Hx. unfold re_match in E.
    destruct (match_here (atoms r) x) as [g|] eqn:Eg; [|discriminate].
    injection E as _ <-. apply expand_forallb; [assumption|].
    eapply match_here_forallb; eassumption. }
  unfold re_sub. destruct (anchored r).
  - destruct (re_match r t s) as [[n out]|] eqn:E; [|assumption].
    rewrite forallb_app, (Hm _ _ _ E Hs). simpl. apply forallb_skipn, Hs.
  - apply rewrite_scan_forallb; assumption.
Qed.

End ReplaceAndSub.

Section Counting.

Variable c : char.

Lemma replace_count (old new s : str) :
  old <> [] ->
  count_char c old = count_char c new ->
  count_char c (replace old new s) = count_char c s.
Proof.
  intros Hne H. destruct old as [|x old]; [congruence|]. unfold replace.
  rewrite rewrite_scan_count; [reflexivity|].
  intros r n out E.
  destruct (startswith (x :: old) r) eqn:Es; [|discriminate].
  injection E as <- <-. split; [simpl; lia|].
  change (S (List.length old)) with (List.length (x :: old)).
  rewrite (startswith_firstn _ _ Es). assumption.
Qed.

Lemma re_sub_count (r : regex) (t : list titem) (s : str) :
  atoms r <> [] ->
  (forall x g, match_here (atoms r) x = Some g ->
     count_char c (firstn (List.length (atoms r)) x) = count_char c (expand t g)) ->
  count_char c (re_sub r t s) = count_char c s.
Proof.
  intros Hne Hm.
  assert (Hm' : forall x n out, re_match r t x = Some (n, out) ->
                  1 <= n /\ count_char c (firstn n x) = count_char c out).
  { intros x n out E. unfold re_match in E.
    destruct (match_here (atoms r) x) as [g|] eqn:Eg; [|discriminate].
    injection E as <- <-. split; [|auto].
    destruct (atoms r); [congruence | simpl; lia]. }
  unfold re_sub. destruct (anchored r).
  - destruct (re_match r t s) as [[n out]|] eqn:E; [|reflexivity].
    destruct (Hm' _ _ _ E) as [_ Hc].
    rewrite count_char_app, <- Hc, <- count_char_firstn_skipn. reflexivity.
  - rewrite rewrite_scan_count; [reflexivity | assumption].
Qed.

Lemma split_length (s : str) :
  List.length (split c s) = S (count_char c s).
Proof.
  induction s as [|x s IH]; [reflexivity|].
  unfold count_char in *. simpl. rewrite (N.eqb_sym c x).
  destruct (N.eqb x c); simpl; [rewrite IH; reflexivity|].
  destruct (split c s); simpl in *; lia.
Qed.

End Counting.

(* ================================================================== *)
(** ** Normalisation keeps word boundaries and adds no Arabic letter *)

(** Case analysis of a successful [match_here] on fixed atoms. *)
Ltac match_cases E :=
  cbn [match_here atom_match atoms] in E;
  repeat
    match type of E with
    | context [N.eqb ?a ?b] =>
        let H := fresh "H" in
        destruct (N.eqb a b) eqn:H;
        [apply N.eqb_eq in H; subst a | discriminate E];
        cbn [match_here atom_match] in E
    | context [char_in ?a ?l] =>
        let H := fresh "H" in
        destruct (char_in a l) eqn:H;
        [discriminate E | cbn [negb match_here atom_match] in E]
    end.

Section Normalise.

Lemma count_char_cons (c x : char) (s : str) :
  count_char c (x :: s) = (if N.eqb c x then 1 else 0) + count_char c s.
Proof. unfold count_char. simpl. destruct (N.eqb c x); reflexivity. Qed.

(** The three literal patterns [Ai], [Aa], [Au] hold no space, nor do their
    replacements. *)
Lemma literal_pair_count (a b : char) (t : list titem) (x : str) (g : list char) :
  match_here [Lit a; Lit b] x = Some g ->
  count_char space [a; b] = 0 ->
  count_char space (expand t []) = 0 ->
  count_char space (firstn 2 x) = count_char space (expand t g).
Proof.
  intros E Hab Ht. destruct x as [|c1 [|c2 x]]; try discriminate E.
  - cbn [match_here atom_match] in E. destruct (N.eqb c1 a); discriminate E.
  - match_cases E. injection E as <-. cbn [firstn]. congruence.
Qed.

Lemma initial_hamza_count (x : str) (g : list char) :
  match_here (atoms re_initial_hamza) x = Some g ->
  count_char space (firstn 2 x)
  = count_char space (expand (tlit ">a" ++ [TRef 1]) g).
Proof.
  intros E. destruct x as [|c1 [|c2 x]]; try discriminate E.
  - cbn [match_here atom_match atoms re_initial_hamza] in E.
    destruct (N.eqb c1 (ch ">")); discriminate E.
  - unfold re_initial_hamza in E. match_cases E. injection E as <-.
    assert (Hx : expand (tlit ">a" ++ [TRef 1]) [c2] = [ch ">"; ch "a"; c2])
      by reflexivity.
    rewrite Hx. cbn [firstn]. rewrite !count_char_cons.
    destruct (N.eqb space c2); reflexivity.
Qed.

Lemma word_hamza_count (x : str) (g : list char) :
  match_here (atoms re_word_hamza) x = Some g ->
  count_char space (firstn 3 x)
  = count_char space (expand (tlit " >a" ++ [TRef 1]) g).
Proof.
  intros E. unfold re_word_hamza in E.
  destruct x as [|c1 [|c2 [|c3 x]]]; try discriminate E;
    match_cases E; try discriminate E.
  injection E as <-.
  assert (Hx : expand (tlit " >a" ++ [TRef 1]) [c3]
               = [space; ch ">"; ch "a"; c3]) by reflexivity.
  rewrite Hx. cbn [firstn]. rewrite !count_char_cons.
  destruct (N.eqb space c3); reflexivity.
Qed.

Lemma hamza_below_count (x : str) (g : list char) :
  match_here (atoms re_hamza_below) x = Some g ->
  count_char space (firstn 2 x)
  = count_char space (expand (tlit "<i" ++ [TRef 1]) g).
Proof.
  intros E. unfold re_hamza_below in E.
  destruct x as [|c1 [|c2 x]]; try discriminate E;
    match_cases E; try discriminate E.
  injection E as <-.
  assert (Hx : expand (tlit "<i" ++ [TRef 1]) [c2] = [ch "<"; ch "i"; c2])
    by reflexivity.
  rewrite Hx. cbn [firstn]. rewrite !count_char_cons.
  destruct (N.eqb space c2); reflexivity.
Qed.

(** No rewrite rule adds or removes a space. *)
Lemma normalise_count_space (s : str) :
  count_char space (normalise s) = count_char space s.
Proof.
  unfold normalise. cbv zeta.
  rewrite re_sub_count;
    [| discriminate | exact hamza_below_count].
  rewrite re_sub_count;
    [| discriminate | exact word_hamza_count].
  rewrite re_sub_count;
    [| discriminate | exact initial_hamza_count].
  do 3 (rewrite re_sub_count;
        [| discriminate
         | intros x g E; apply (literal_pair_count _ _ _ _ _ E); reflexivity]).
  repeat (rewrite replace_count; [| discriminate | reflexivity]).
  reflexivity.
Qed.

Lemma translit_space (c : char) : N.eqb space (translit c) = N.eqb space c.
Proof.
  unfold translit.
  destruct (get N.eqb arabic_to_buckw_dict c) as [b|] eqn:E; [|reflexivity].
  assert (Hv : forallb (fun b => negb (N.eqb space b))
                       (map snd arabic_to_buckw_dict) = true)
    by (vm_compute; reflexivity).
  assert (Hk : forallb (fun k => negb (N.eqb space k))
                       (map fst arabic_to_buckw_dict) = true)
    by (vm_compute; reflexivity).
  rewrite forallb_forall in Hv, Hk.
  pose proof (get_In_values _ _ _ _ E) as Hb. apply Hv, negb_true_iff in Hb.
  rewrite Hb. symmetry.
  destruct (N.eqb space c) eqn:Ec; [|reflexivity].
  apply N.eqb_eq in Ec. subst c. vm_compute in E. discriminate E.
Qed.

(** Transliteration neither adds nor removes a space. *)
Lemma arabic_to_buckwalter_count_space (s : str) :
  count_char space (arabic_to_buckwalter s) = count_char space s.
Proof.
  rewrite arabic_to_buckwalter_map.
  induction s as [|c s IH]; [reflexivity|].
  simpl map. rewrite !count_char_cons, translit_space, IH. reflexivity.
Qed.

(** The number of words is the number of space-separated pieces of the
    input. *)
Lemma preprocess_utterance_length (s : str) :
  List.length (preprocess_utterance (arabic_to_buckwalter s))
  = List.length (split space s).
Proof.
  unfold preprocess_utterance.
  rewrite !split_length, normalise_count_space,
    arabic_to_buckwalter_count_space.
  reflexivity.
Qed.

Lemma normalise_non_arabic (s : str) :
  non_arabic s = true -> non_arabic (normalise s) = true.
Proof.
  unfold non_arabic, normalise. cbv zeta. intros H.
  repeat (apply re_sub_forallb; [vm_compute; reflexivity|]).
  repeat (apply replace_forallb; [vm_compute; reflexivity|]).
  assumption.
Qed.

Lemma split_forallb (q : char -> bool) (sep : char) (s w : str) :
  forallb q s = true -> In w (split sep s) -> forallb q w = true.
Proof.
  revert w. induction s as [|c s IH]; intros w Hs Hw.
  - destruct Hw as [<- | []]. reflexivity.
  - simpl in Hs. apply andb_true_iff in Hs. destruct Hs as [Hc Hs].
    simpl in Hw. destruct (N.eqb c sep).
    + destruct Hw as [<- | Hw]; [reflexivity | auto].
    + destruct (split sep s) as [|w0 ws] eqn:E.
      * destruct Hw as [<- | []]. simpl. rewrite Hc. reflexivity.
      * destruct Hw as [<- | Hw].
        -- simpl. rewrite Hc. apply IH; [assumption | left; reflexivity].
        -- apply IH; [assumption | right; assumption].
Qed.

End Normalise.

(* ================================================================== *)
(** ** The units of the tokenizer and their symbols *)

Section Symbols.

Lemma single_char_units (c : char) :
  Forall (fun u => In u all_units) (single_char c).
Proof.
  unfold single_char, all_units.
  destruct (get N.eqb unambiguousConsonantMap c) as [u|] eqn:E1.
  { constructor; [|constructor].
    apply in_or_app; right; apply in_or_app; left.
    eapply get_In_values, E1. }
  destruct (get N.eqb vowelMap c) as [u|] eqn:E2.
  { constructor; [|constructor].
    do 2 (apply in_or_app; right). apply in_or_app; left.
    eapply get_In_values, E2. }
  destruct (char_in c consonants || char_in c [ch "w"; ch "y"]) eqn:E3;
    [|constructor].
  constructor; [|constructor].
  do 3 (apply in_or_app; right).
  apply (in_map (fun x : char => [x])), in_or_app.
  apply orb_true_iff in E3. rewrite !char_in_In in E3. exact E3.
Qed.

Lemma extract_phonemes_units (w : str) :
  Forall (fun u => In u all_units) (extract_phonemes w).
Proof.
  induction w as [| a | a b l IHl IHbl] using list_ind2.
  - constructor.
  - simpl. rewrite app_nil_r. apply single_char_units.
  - change (extract_phonemes (a :: b :: l))
      with (if str_in [a; b] two_char_units
            then [a; b] :: extract_phonemes l
            else single_char a ++ extract_phonemes (b :: l)).
    destruct (str_in [a; b] two_char_units) eqn:E.
    + constructor; [|assumption].
      apply str_in_In in E. unfold all_units. apply in_or_app; left; exact E.
    + apply Forall_app; split; [apply single_char_units | assumption].
Qed.

(** Started at the cursor [i = len(pre)], the loop appends the units of
    the text that remains, whenever the fuel covers that text. *)
Lemma tokenizer_loop_from (fuel : nat) (pre rest : str) (acc : list str) :
  List.length rest <= fuel ->
  tokenizer_loop fuel (pre ++ rest) (List.length pre) acc
  = Some (acc ++ extract_phonemes rest).
Proof.
  revert pre rest acc.
  induction fuel as [|fuel IH]; intros pre rest acc Hfuel.
  - destruct rest; [|simpl in Hfuel; lia].
    simpl. rewrite !app_nil_r, Nat.leb_refl. reflexivity.
  - destruct rest as [|c rest].
    + simpl. rewrite !app_nil_r, Nat.leb_refl. reflexivity.
    + cbn [tokenizer_loop].
      assert (Hlt : Nat.leb (List.length (pre ++ c :: rest)) (List.length pre)
                    = false)
        by (apply Nat.leb_gt; rewrite length_app; simpl; lia).
      rewrite Hlt. cbv zeta.
      rewrite nth_middle, skipn_app, skipn_all, Nat.sub_diag.
      cbn [app skipn].
      assert (E1 : pre ++ c :: rest = (pre ++ [c]) ++ rest)
        by (rewrite <- app_assoc; reflexivity).
      assert (L1 : List.length pre + 1 = List.length (pre ++ [c]))
        by (rewrite length_app; reflexivity).
      destruct rest as [|d rest].
      * assert (Hk : Nat.ltb (List.length pre) (List.length (pre ++ [c]) - 1)
                     = false)
          by (apply Nat.ltb_ge; rewrite length_app; simpl; lia).
        rewrite Hk. cbn [andb]. rewrite <- (app_nil_r (pre ++ [c])) at 1.
        rewrite L1, IH by (simpl; lia).
        simpl. rewrite !app_nil_r. reflexivity.
      * assert (Hk : Nat.ltb (List.length pre)
                             (List.length (pre ++ c :: d :: rest) - 1) = true)
          by (apply Nat.ltb_lt; rewrite length_app; simpl; lia).
        rewrite Hk. cbn [andb firstn].
        change (extract_phonemes (c :: d :: rest))
          with (if str_in [c; d] two_char_units
                then [c; d] :: extract_phonemes rest
                else single_char c ++ extract_phonemes (d :: rest)).
        destruct (str_in [c; d] two_char_units).
        -- assert (E2 : pre ++ c :: d :: rest = (pre ++ [c; d]) ++ rest)
             by (rewrite <- app_assoc; reflexivity).
           assert (L2 : List.length pre + 2 = List.length (pre ++ [c; d]))
             by (rewrite length_app; reflexivity).
           rewrite E2, L2, IH by (simpl in Hfuel; lia).
           rewrite <- app_assoc. reflexivity.
        -- rewrite E1, L1, IH by (simpl in Hfuel; simpl; lia).
           rewrite <- app_assoc. reflexivity.
Qed.

(** The loop of [process_word_simple], run from [i = 0] with an empty list,
    ends within [len(buckwalter_word)] iterations with the units of
    [extract_phonemes]. *)
Lemma tokenizer_loop_extract_phonemes (buckwalter_word : str) :
  tokenizer_loop (List.length buckwalter_word) buckwalter_word 0 []
  = Some (extract_phonemes buckwalter_word).
Proof. apply (tokenizer_loop_from _ [] buckwalter_word []). lia. Qed.

Lemma all_units_clean (u : str) :
  In u all_units -> clean_symbol (buckwalter_to_ipa_phoneme u) = true.
Proof.
  assert (H : forallb (fun u => clean_symbol (buckwalter_to_ipa_phoneme u))
                      all_units = true) by (vm_compute; reflexivity).
  rewrite forallb_forall in H. apply H.
Qed.

(** Every word yields at least one symbol, and only clean symbols. *)
Lemma process_word_simple_clean (word : str) :
  process_word_simple word <> [] /\
  Forall (fun sym => clean_symbol sym = true) (process_word_simple word).
Proof.
  unfold process_word_simple.
  destruct (falsy word || str_in word [lit "-"; sil]).
  { split; [discriminate | repeat constructor]. }
  cbv zeta.
  set (l := filter _ _).
  assert (Hl : Forall (fun sym => clean_symbol sym = true) l).
  { subst l. apply Forall_forall. intros sym Hs.
    apply filter_In in Hs. destruct Hs as [Hs _].
    apply in_map_iff in Hs. destruct Hs as (u & <- & Hu).
    apply all_units_clean.
    pose proof (extract_phonemes_units (arabic_to_buckwalter word)) as H.
    rewrite Forall_forall in H. apply H, Hu. }
  destruct l; [split; [discriminate | repeat constructor]|].
  split; [discriminate | assumption].
Qed.

Lemma word_phonemes_clean (word : str) :
  word_phonemes word <> [] /\
  Forall (fun sym => clean_symbol sym = true) (word_phonemes word).
Proof.
  unfold word_phonemes.
  destruct (str_in word [lit "-"; sil] || falsy (strip word)).
  - split; [discriminate | repeat constructor].
  - apply process_word_simple_clean.
Qed.

Lemma utterance_phonemes_clean (s : str) :
  Forall (fun phones =>
            phones <> [] /\ Forall (fun sym => clean_symbol sym = true) phones)
         (utterance_phonemes s).
Proof.
  unfold utterance_phonemes. cbv zeta. apply Forall_forall.
  intros phones H. apply in_map_iff in H. destruct H as (w & <- & _).
  apply word_phonemes_clean.
Qed.

Lemma clean_symbol_spec (sym : str) :
  clean_symbol sym = true ->
  sym <> [] /\ no_plus sym = true /\ no_space sym = true /\
  forallb (fun c => negb (isspace c)) sym = true.
Proof.
  unfold clean_symbol, no_plus, no_space. rewrite andb_true_iff.
  intros [Hne Hall]. split; [destruct sym; [discriminate Hne | discriminate]|].
  rewrite forallb_forall in Hall.
  repeat split; apply forallb_forall; intros c Hc; specialize (Hall c Hc);
    unfold clean_char in Hall; apply andb_true_iff in Hall;
    destruct Hall as [Hs Hp]; try assumption.
  apply negb_true_iff. apply negb_true_iff in Hs.
  destruct (N.eqb c space) eqn:E; [|reflexivity].
  apply N.eqb_eq in E. subst c. discriminate Hs.
Qed.

End Symbols.

(* ================================================================== *)
(** ** Rendering: joins, separators and tokens *)

Section Rendering.

Lemma separator_eq : separator = [space; plus; space].
Proof. reflexivity. Qed.

Lemma join_nonempty (sep w : str) (ws : list str) :
  w <> [] -> join sep (w :: ws) <> [].
Proof.
  intros Hw. destruct ws as [|w' ws]; simpl; [assumption|].
  intros H. apply app_eq_nil in H. destruct H as [H _]. contradiction.
Qed.

Lemma join_forallb (q : char -> bool) (sep : str) (ws : list str) :
  forallb q sep = true -> Forall (fun w => forallb q w = true) ws ->
  forallb q (join sep ws) = true.
Proof.
  intros Hsep. induction 1 as [|w ws Hw Hws IH]; [reflexivity|].
  destruct ws as [|w' ws]; [exact Hw|].
  rewrite join_cons2, !forallb_app, Hw, Hsep. simpl. exact IH.
Qed.

Lemma join_app (sep : str) (l1 l2 : list str) :
  l1 <> [] -> l2 <> [] ->
  join sep (l1 ++ l2) = join sep l1 ++ sep ++ join sep l2.
Proof.
  intros H1 H2. induction l1 as [|w l1 IH]; [congruence|].
  destruct l1 as [|w' l1].
  - destruct l2 as [|w2 l2]; [congruence | reflexivity].
  - change ((w :: w' :: l1) ++ l2) with (w :: w' :: (l1 ++ l2)).
    rewrite !join_cons2.
    change (w' :: l1 ++ l2) with ((w' :: l1) ++ l2).
    rewrite IH by discriminate. rewrite <- !app_assoc. reflexivity.
Qed.

(** Splitting a join on its one-character separator gives the pieces
    back when none of them holds the separator. *)
Lemma split_join (sep : char) (ws : list str) :
  ws <> [] ->
  Forall (fun w => forallb (fun c => negb (N.eqb c sep)) w = true) ws ->
  split sep (join [sep] ws) = ws.
Proof.
  intros Hne Hall. revert Hne.
  induction Hall as [|w ws Hw Hws IH]; intros Hne;
    [exfalso; apply Hne; reflexivity|].
  assert (Hpre : forall t x r, split sep t = x :: r ->
            split sep (w ++ t) = (w ++ x) :: r).
  { intros t x r Ht. clear -Hw Ht. induction w as [|c w IHw]; simpl.
    - assumption.
    - simpl in Hw. apply andb_true_iff in Hw. destruct Hw as [Hc Hw].
      apply negb_true_iff in Hc. rewrite Hc, (IHw Hw). reflexivity. }
  destruct ws as [|w' ws].
  - pose proof (Hpre [] [] [] eq_refl) as H0.
    rewrite !app_nil_r in H0. exact H0.
  - rewrite join_cons2.
    rewrite (Hpre _ [] (w' :: ws)).
    + rewrite app_nil_r. reflexivity.
    + change ([sep] ++ join [sep] (w' :: ws))
        with (sep :: join [sep] (w' :: ws)).
      cbn [split]. rewrite N.eqb_refl. f_equal. apply IH. discriminate.
Qed.

Lemma starts_plus_app (w t : str) :
  no_plus w = true -> starts_plus t = false -> starts_plus (w ++ t) = false.
Proof.
  destruct w as [|c w]; [auto|].
  unfold no_plus. cbn [forallb app starts_plus].
  rewrite andb_true_iff, negb_true_iff. tauto.
Qed.

Lemma startswith_plus (p s : str) :
  starts_plus s = false -> startswith (plus :: p) s = false.
Proof.
  destruct s as [|c s]; cbn [startswith starts_plus]; [reflexivity|].
  rewrite (N.eqb_sym plus c). intros ->. reflexivity.
Qed.

Lemma startswith_separator (c : char) (s : str) :
  starts_plus s = false -> startswith separator (c :: s) = false.
Proof.
  intros H. rewrite separator_eq.
  change (startswith [space; plus; space] (c :: s))
    with (N.eqb space c && startswith [plus; space] s).
  rewrite (startswith_plus _ _ H). apply andb_false_r.
Qed.

(** A stretch without [+] in front of a text that does not begin with [+]
    holds no occurrence of the separator. *)
Lemma count_sub_no_plus (w t : str) :
  no_plus w = true -> starts_plus t = false ->
  count_sub separator (w ++ t) = count_sub separator t.
Proof.
  intros Hw Ht. induction w as [|c w IH]; [reflexivity|].
  simpl in Hw. apply andb_true_iff in Hw. destruct Hw as [_ Hw].
  simpl app. cbn [count_sub].
  rewrite startswith_separator by (apply starts_plus_app; assumption).
  rewrite IH by assumption. reflexivity.
Qed.

Lemma count_sub_separator (r : str) :
  starts_plus r = false ->
  count_sub separator (separator ++ r) = S (count_sub separator r).
Proof.
  intros Hr. rewrite separator_eq.
  change ([space; plus; space] ++ r) with (space :: plus :: space :: r).
  cbn [count_sub]. rewrite <- separator_eq.
  rewrite (startswith_separator space r Hr).
  assert (H1 : startswith separator (space :: plus :: space :: r) = true)
    by reflexivity.
  assert (H2 : startswith separator (plus :: space :: r) = false)
    by reflexivity.
  rewrite H1, H2. reflexivity.
Qed.

Lemma count_scan_no_plus (w t : str) :
  no_plus w = true -> starts_plus t = false ->
  count_scan separator 0 (w ++ t) = count_scan separator 0 t.
Proof.
  intros Hw Ht. induction w as [|c w IH]; [reflexivity|].
  simpl in Hw. apply andb_true_iff in Hw. destruct Hw as [_ Hw].
  simpl app. cbn [count_scan].
  rewrite startswith_separator by (apply starts_plus_app; assumption).
  apply IH; assumption.
Qed.

Lemma count_scan_separator (r : str) :
  count_scan separator 0 (separator ++ r) = S (count_scan separator 0 r).
Proof. reflexivity. Qed.

(** Words without [+] joined by the separator: one separator between two
    neighbours, counted by position or by [str.count]. *)
Lemma count_join_separator (ws : list str) :
  Forall (fun w => no_plus w = true) ws ->
  count_sub separator (join separator ws) = List.length ws - 1 /\
  count separator (join separator ws) = List.length ws - 1 /\
  starts_plus (join separator ws) = false.
Proof.
  unfold count.
  induction 1 as [|w ws Hw Hws (IH1 & IH2 & IH3)]; [repeat split|].
  destruct ws as [|w' ws].
  - cbn [join List.length]. rewrite <- (app_nil_r w).
    rewrite count_sub_no_plus, count_scan_no_plus, starts_plus_app;
      auto.
  - rewrite join_cons2.
    assert (Hs : starts_plus (separator ++ join separator (w' :: ws)) = false)
      by reflexivity.
    rewrite count_sub_no_plus, count_scan_no_plus, starts_plus_app; auto.
    rewrite count_sub_separator, count_scan_separator, IH1, IH2 by assumption.
    cbn [List.length]. repeat split; lia.
Qed.

Lemma tokens_cons2 (p p' : list str) (rest : list (list str)) :
  tokens (p :: p' :: rest) = p ++ [[plus]] ++ tokens (p' :: rest).
Proof. reflexivity. Qed.

Lemma tokens_nonempty (p : list str) (rest : list (list str)) :
  p <> [] -> tokens (p :: rest) <> [].
Proof.
  intros Hp. destruct rest; simpl; [assumption|].
  intros H. apply app_eq_nil in H. destruct H as [H _]. contradiction.
Qed.

(** The rendered string is the space-join of the tokens. *)
Lemma final_sequence_tokens (phonemes : list (list str)) :
  Forall (fun phones => phones <> []) phonemes ->
  final_sequence phonemes = join [space] (tokens phonemes).
Proof.
  unfold final_sequence.
  induction 1 as [|p ps Hp Hps IH]; [reflexivity|].
  destruct ps as [|p' ps]; [reflexivity|].
  change (map (join (lit " ")) (p :: p' :: ps))
    with (join (lit " ") p :: map (join (lit " ")) (p' :: ps)).
  remember (p' :: ps) as rest eqn:Erest.
  assert (Hrest : tokens rest <> []).
  { subst rest. apply tokens_nonempty. inversion Hps; assumption. }
  assert (Hmap : map (join (lit " ")) rest
                 = join (lit " ") p' :: map (join (lit " ")) ps)
    by (subst rest; reflexivity).
  rewrite Hmap, join_cons2, <- Hmap, IH.
  rewrite Erest, tokens_cons2, <- Erest.
  rewrite join_app by (assumption || (simpl; discriminate)).
  rewrite join_app by (assumption || discriminate).
  reflexivity.
Qed.

End Rendering.

(* ================================================================== *)
(** ** The pipeline *)

Section Pipeline.

Lemma process_utterance_str (s : str) :
  process_utterance_body (PyStr s) = Ok (final_sequence (utterance_phonemes s)) /\
  process_utterance (PyStr s) = final_sequence (utterance_phonemes s).
Proof. split; reflexivity. Qed.

Lemma utterance_phonemes_length (s : str) :
  List.length (utterance_phonemes s) = List.length (split space s).
Proof.
  unfold utterance_phonemes. cbv zeta.
  rewrite length_map. apply preprocess_utterance_length.
Qed.

Lemma utterance_phonemes_nonempty_lists (s : str) :
  Forall (fun phones => phones <> []) (utterance_phonemes s).
Proof.
  eapply Forall_impl; [|apply utterance_phonemes_clean].
  intros phones [H _]. exact H.
Qed.

Lemma word_strings_no_plus (s : str) :
  Forall (fun w => no_plus w = true)
         (map (join (lit " ")) (utterance_phonemes s)).
Proof.
  apply Forall_forall. intros w Hw. apply in_map_iff in Hw.
  destruct Hw as (phones & <- & Hin).
  pose proof (utterance_phonemes_clean s) as H.
  rewrite Forall_forall in H. destruct (H _ Hin) as [_ Hclean].
  apply join_forallb; [reflexivity|].
  eapply Forall_impl; [|exact Hclean].
  intros sym Hsym. apply clean_symbol_spec in Hsym. apply Hsym.
Qed.

Lemma tokens_no_space (phonemes : list (list str)) :
  Forall (fun phones => Forall (fun sym => clean_symbol sym = true) phones)
         phonemes ->
  Forall (fun w => no_space w = true) (tokens phonemes).
Proof.
  induction 1 as [|p ps Hp Hps IH]; [constructor|].
  assert (Hp' : Forall (fun w => no_space w = true) p).
  { eapply Forall_impl; [|exact Hp].
    intros sym Hsym. apply clean_symbol_spec in Hsym. apply Hsym. }
  destruct ps as [|p' ps]; [exact Hp'|].
  rewrite tokens_cons2. apply Forall_app. split; [exact Hp'|].
  apply Forall_app. split; [repeat constructor | exact IH].
Qed.

Lemma final_sequence_nonempty (s : str) :
  final_sequence (utterance_phonemes s) <> [].
Proof.
  pose proof (utterance_phonemes_clean s) as H.
  pose proof (utterance_phonemes_length s) as Hlen.
  rewrite split_length in Hlen.
  destruct (utterance_phonemes s) as [|p ps]; [discriminate Hlen|].
  inversion H as [|? ? [Hp Hclean] _]; subst.
  unfold final_sequence. simpl map. apply join_nonempty.
  destruct p as [|sym syms]; [congruence|].
  apply join_nonempty. inversion Hclean as [|? ? Hsym _]; subst.
  apply clean_symbol_spec in Hsym. apply Hsym.
Qed.

(** Splitting the output on the space gives back the tokens. *)
Lemma split_final_sequence (s : str) :
  split space (final_sequence (utterance_phonemes s))
  = tokens (utterance_phonemes s).
Proof.
  rewrite final_sequence_tokens by apply utterance_phonemes_nonempty_lists.
  apply split_join.
  - pose proof (utterance_phonemes_nonempty_lists s) as H.
    pose proof (utterance_phonemes_length s) as Hlen.
    rewrite split_length in Hlen.
    destruct (utterance_phonemes s) as [|p ps]; [discriminate Hlen|].
    apply tokens_nonempty. inversion H; assumption.
  - apply tokens_no_space.
    eapply Forall_impl; [|apply utterance_phonemes_clean].
    intros phones [_ H]. exact H.
Qed.

End Pipeline.

(* ================================================================== *)
(** ** Properties of [process_utterance] *)

(** C1. For every input string [process_utterance] returns normally and the
    string returned is not empty; whenever the body of the [try] block
    raises, for any argument, the call returns exactly ["sil"]. *)
Theorem process_utterance_total (s : str) (v : pyval) :
  (exists r, process_utterance_body (PyStr s) = Ok r /\
             process_utterance (PyStr s) = r /\ r <> []) /\
  (forall e, process_utterance_body v = Raise e ->
             process_utterance v = lit "sil") /\
  process_utterance v <> [].
Proof.
  split; [|split].
  - exists (final_sequence (utterance_phonemes s)).
    repeat split. apply final_sequence_nonempty.
  - intros e H. unfold process_utterance. rewrite H. reflexivity.
  - destruct v as [x| |z]; try discriminate.
    apply final_sequence_nonempty.
Qed.

Lemma process_utterance_total_witness :
  process_utterance PyNone = lit "sil" /\
  process_utterance (PyStr (lit "1 2")) = lit "sil + sil".
Proof.
  split.
  - apply (proj1 (proj2 (process_utterance_total [] PyNone)) TypeError).
    reflexivity.
  - vm_compute; reflexivity.
Defined.

(** C5. For an utterance of [n] space-separated pieces, the loop of
    [process_utterance] sees [n] words and the string returned holds
    exactly [n - 1] occurrences of the separator, counted by position and
    by [str.count]; the rewrite rules neither add nor remove a space. *)
Theorem word_count_preservation (s : str) :
  count_char space (normalise (arabic_to_buckwalter s)) = count_char space s /\
  List.length (utterance_phonemes s) = List.length (split space s) /\
  count_sub separator (process_utterance (PyStr s))
    = List.length (split space s) - 1 /\
  count separator (process_utterance (PyStr s))
    = List.length (split space s) - 1.
Proof.
  split; [|split].
  - rewrite normalise_count_space. apply arabic_to_buckwalter_count_space.
  - apply utterance_phonemes_length.
  - destruct (count_join_separator _ (word_strings_no_plus s)) as (H1 & H2 & _).
    rewrite length_map, utterance_phonemes_length in H1, H2.
    split; assumption.
Qed.

(** C7. Every symbol of every word of the output is non-empty and holds no
    whitespace character and no [+]; splitting the output on the space
    gives back exactly the symbols, with one token [+] between two words. *)
Theorem symbols_unambiguous (s : str) :
  (forall phones sym,
      In phones (utterance_phonemes s) -> In sym phones ->
      sym <> [] /\ forall c, In c sym -> isspace c = false /\ c <> plus) /\
  split space (process_utterance (PyStr s)) = tokens (utterance_phonemes s).
Proof.
  split.
  - intros phones sym Hp Hs.
    pose proof (utterance_phonemes_clean s) as H.
    rewrite Forall_forall in H. destruct (H _ Hp) as [_ Hclean].
    rewrite Forall_forall in Hclean. specialize (Hclean _ Hs).
    unfold clean_symbol in Hclean. apply andb_true_iff in Hclean.
    destruct Hclean as [Hne Hall]. split.
    + destruct sym; [discriminate Hne | discriminate].
    + intros c Hc. rewrite forallb_forall in Hall. specialize (Hall _ Hc).
      unfold clean_char in Hall. apply andb_true_iff in Hall.
      destruct Hall as [H1 H2]. apply negb_true_iff in H1, H2.
      split; [assumption|]. apply N.eqb_neq. assumption.
  - apply split_final_sequence.
Qed.

Lemma symbols_unambiguous_witness :
  [ch "a"; long] <> [] /\
  (isspace long = false /\ long <> plus) /\
  split space (process_utterance (PyStr shukran))
  = [[esh]; lit "k"; lit "r"; [ch "a"; long]].
Proof.
  destruct (symbols_unambiguous shukran) as [H1 H2].
  destruct (H1 [[esh]; lit "k"; lit "r"; [ch "a"; long]] [ch "a"; long])
    as [Hne Hc].
  - vm_compute. left. reflexivity.
  - simpl. auto.
  - split; [exact Hne|]. split; [apply Hc; simpl; auto|].
    rewrite H2. vm_compute. reflexivity.
Defined.

(** The claim that non-Arabic words pass through the pipeline unchanged
    fails: no character of ["hello"] is in the transliteration table, yet
    the rule that deletes [o] and the tokenizer, which skips [e], turn it
    into ["h l l"]; the digit ["1"] is lost altogether. *)
Lemma non_arabic_word_changed :
  non_arabic (lit "hello") = true /\
  process_utterance (PyStr (lit "hello")) = lit "h l l" /\
  process_utterance (PyStr (lit "hello")) <> lit "hello" /\
  ~ In (ch "e") (process_utterance (PyStr (lit "hello"))) /\
  non_arabic (lit "1") = true /\
  process_utterance (PyStr (lit "1")) = lit "sil".
Proof.
  repeat split; try (vm_compute; reflexivity).
  - vm_compute. discriminate.
  - vm_compute. intros H.
    repeat (destruct H as [H | H]; [discriminate H|]). exact H.
Qed.

(** C6 (as the code has it). A word whose characters are all outside the
    Arabic-to-Buckwalter table is returned unchanged, character by
    character, by the transliterator, in [process_utterance] and again in
    [process_word_simple]; the later stages may still rewrite or drop its
    characters. *)
Theorem non_arabic_transliteration (w : str) :
  non_arabic w = true ->
  arabic_to_buckwalter w = w /\
  arabic_to_buckwalter (arabic_to_buckwalter w) = w /\
  List.length (arabic_to_buckwalter w) = List.length w.
Proof.
  intros H. rewrite !(arabic_to_buckwalter_fixed w H). repeat split.
Qed.

Lemma non_arabic_transliteration_witness :
  arabic_to_buckwalter (lit "hello") = lit "hello".
Proof.
  apply (non_arabic_transliteration (lit "hello")). vm_compute; reflexivity.
Defined.

(** The claim that a second run returns the first output or ["sil"]
    fails: the output of the worked example, four symbols separated by
    spaces, is read back as four words, of which the first has no
    classified character and the last loses its length mark. *)
Lemma second_run_differs :
  ~ (forall s, exists r,
       process_utterance_body (PyStr (process_utterance (PyStr s))) = Ok r /\
       (r = process_utterance (PyStr s) \/ r = lit "sil")).
Proof.
  intros H. destruct (H shukran) as (r & Hr & Hor).
  vm_compute in Hr. injection Hr as <-.
  destruct Hor as [Hor | Hor]; vm_compute in Hor; discriminate Hor.
Qed.

(** C9 (as the code has it). Running the pipeline on its own output
    returns normally, with a non-empty string.  Every symbol and every [+]
    of the first output is read as a word of its own by the second run, so
    the result need not be the first output; when the first output is
    ["sil"], so is the second. *)
Theorem second_run_returns (s : str) :
  exists r,
    process_utterance_body (PyStr (process_utterance (PyStr s))) = Ok r /\
    process_utterance (PyStr (process_utterance (PyStr s))) = r /\
    r <> [] /\
    List.length (utterance_phonemes (process_utterance (PyStr s)))
      = List.length (tokens (utterance_phonemes s)) /\
    (process_utterance (PyStr s) = lit "sil" -> r = lit "sil").
Proof.
  exists (final_sequence (utterance_phonemes (process_utterance (PyStr s)))).
  repeat split.
  - apply final_sequence_nonempty.
  - rewrite utterance_phonemes_length.
    destruct (process_utterance_str s) as [_ ->].
    rewrite split_final_sequence. reflexivity.
  - intros ->. vm_compute. reflexivity.
Qed.

Lemma second_run_returns_witness :
  process_utterance (PyStr (process_utterance (PyStr (lit "-")))) = lit "sil".
Proof.
  destruct (second_run_returns (lit "-")) as (r & _ & <- & _ & _ & H).
  apply H. vm_compute. reflexivity.
Defined.

(** C10. Transliterating twice is transliterating once, because no
    character the table emits is a key of the table; and every word that
    [preprocess_utterance] hands to [process_word_simple] is left unchanged
    by the second transliteration. *)
Theorem transliteration_idempotent (s : str) :
  arabic_to_buckwalter (arabic_to_buckwalter s) = arabic_to_buckwalter s /\
  (forall k b, get N.eqb arabic_to_buckw_dict k = Some b ->
               get N.eqb arabic_to_buckw_dict b = None) /\
  (forall word, In word (preprocess_utterance (arabic_to_buckwalter s)) ->
                arabic_to_buckwalter word = word).
Proof.
  split; [|split].
  - apply arabic_to_buckwalter_fixed, arabic_to_buckwalter_not_keys.
  - intros k b Hk. apply get_In_values, values_not_keys in Hk.
    unfold is_arabic_key in Hk.
    destruct (get N.eqb arabic_to_buckw_dict b); [discriminate Hk | reflexivity].
  - intros word Hin. apply arabic_to_buckwalter_fixed.
    unfold preprocess_utterance in Hin.
    eapply split_forallb; [|exact Hin].
    apply normalise_non_arabic, arabic_to_buckwalter_not_keys.
Qed.

Lemma transliteration_idempotent_witness :
  get N.eqb arabic_to_buckw_dict (ch "$") = None /\
  arabic_to_buckwalter (lit "$krA") = lit "$krA".
Proof.
  destruct (transliteration_idempotent shukran) as (_ & H2 & H3). split.
  - apply (H2 0x0634%N). vm_compute. reflexivity.
  - apply H3. vm_compute. left. reflexivity.
Defined.

(* ================================================================== *)
(** ** Further properties of the tokenizer *)

Section Tokenizer.

Lemma get_In_keys {V} (d : dict char V) (k : char) (v : V) :
  get N.eqb d k = Some v -> In k (map fst d).
Proof.
  induction d as [|[k' v'] d IH]; simpl; [discriminate|].
  destruct (N.eqb k k') eqn:E; [|right; auto].
  apply N.eqb_eq in E. subst. left; reflexivity.
Qed.

Lemma skipped_single_char (c : char) : skipped c = true -> single_char c = [].
Proof.
  unfold skipped, classified_chars. rewrite negb_true_iff. intros H.
  assert (Hn : ~ In c (map fst unambiguousConsonantMap ++ map fst vowelMap
                        ++ consonants ++ [ch "w"; ch "y"] ++ [ch "I"; ch "U"])).
  { intros Hin. apply char_in_In in Hin. congruence. }
  unfold single_char.
  destruct (get N.eqb unambiguousConsonantMap c) eqn:E1.
  { exfalso. apply Hn, in_or_app. left. eapply get_In_keys, E1. }
  destruct (get N.eqb vowelMap c) eqn:E2.
  { exfalso. apply Hn, in_or_app. right. apply in_or_app. left.
    eapply get_In_keys, E2. }
  destruct (char_in c consonants) eqn:E3.
  { exfalso. apply Hn. do 2 (apply in_or_app; right). apply in_or_app. left.
    apply char_in_In, E3. }
  destruct (char_in c [ch "w"; ch "y"]) eqn:E4; [|reflexivity].
  exfalso. apply Hn. do 3 (apply in_or_app; right). apply in_or_app. left.
  apply char_in_In, E4.
Qed.

Lemma two_char_units_first (c d : char) :
  str_in [c; d] two_char_units = true -> skipped c = false.
Proof.
  intros H. apply str_in_In in H. unfold two_char_units in H. simpl in H.
  repeat (destruct H as [H | H]; [injection H as <- <-; reflexivity|]).
  destruct H.
Qed.

(** A skipped character at the cursor adds no unit and does not change
    what the rest of the word gives. *)
Lemma extract_phonemes_skip (c : char) (w : str) :
  skipped c = true -> extract_phonemes (c :: w) = extract_phonemes w.
Proof.
  intros H. pose proof (skipped_single_char c H) as Hs.
  destruct w as [|d w].
  - simpl. rewrite Hs. reflexivity.
  - change (extract_phonemes (c :: d :: w))
      with (if str_in [c; d] two_char_units
            then [c; d] :: extract_phonemes w
            else single_char c ++ extract_phonemes (d :: w)).
    destruct (str_in [c; d] two_char_units) eqn:E.
    + apply two_char_units_first in E. congruence.
    + rewrite Hs. reflexivity.
Qed.

Lemma extract_phonemes_all_skipped (w : str) :
  forallb skipped w = true -> extract_phonemes w = [].
Proof.
  induction w as [|c w IH]; [reflexivity|].
  intros H. simpl in H. apply andb_true_iff in H. destruct H as [Hc Hw].
  rewrite extract_phonemes_skip by assumption. auto.
Qed.

Lemma isspace_not_key (c : char) : isspace c = true -> is_arabic_key c = false.
Proof.
  intros H. unfold is_arabic_key.
  destruct (get N.eqb arabic_to_buckw_dict c) eqn:E; [|reflexivity].
  apply get_In_keys in E.
  assert (Hk : forallb (fun k => negb (isspace k))
                       (map fst arabic_to_buckw_dict) = true)
    by (vm_compute; reflexivity).
  rewrite forallb_forall in Hk. specialize (Hk _ E).
  rewrite H in Hk. discriminate Hk.
Qed.

Lemma isspace_skipped (c : char) : isspace c = true -> skipped c = true.
Proof.
  intros H. unfold skipped. apply negb_true_iff.
  destruct (char_in c classified_chars) eqn:E; [|reflexivity].
  apply char_in_In in E.
  assert (Hk : forallb (fun k => negb (isspace k)) classified_chars = true)
    by (vm_compute; reflexivity).
  rewrite forallb_forall in Hk. specialize (Hk _ E).
  rewrite H in Hk. discriminate Hk.
Qed.

Lemma lstrip_nil (s : str) : lstrip s = [] -> forallb isspace s = true.
Proof.
  induction s as [|c s IH]; [reflexivity|].
  simpl. destruct (isspace c); [auto | discriminate].
Qed.

Lemma lstrip_head (s : str) (c : char) (r : str) :
  lstrip s = c :: r -> isspace c = false.
Proof.
  induction s as [|x s IH]; [discriminate|].
  simpl. destruct (isspace x) eqn:E; [auto|].
  intros [= <- <-]. exact E.
Qed.

Lemma lstrip_suffix (s : str) : exists pre, s = pre ++ lstrip s /\ forallb isspace pre = true.
Proof.
  induction s as [|c s (pre & E & H)].
  - exists []. split; reflexivity.
  - simpl. destruct (isspace c) eqn:Ec.
    + exists (c :: pre). simpl. rewrite Ec, H. split; [congruence | reflexivity].
    + exists []. split; reflexivity.
Qed.

(** [not word.strip()] holds exactly of the words made of whitespace. *)
Lemma strip_falsy (s : str) :
  falsy (strip s) = true <-> forallb isspace s = true.
Proof.
  unfold strip. split.
  - intros H.
    destruct (rev (lstrip (rev (lstrip s)))) eqn:E; [|discriminate H].
    apply (f_equal (@rev char)) in E. rewrite rev_involutive in E. simpl in E.
    apply lstrip_nil in E.
    destruct (lstrip s) as [|c r] eqn:El; [apply lstrip_nil, El|].
    apply lstrip_head in El.
    rewrite forallb_forall in E. specialize (E c).
    rewrite El in E. discriminate E. apply in_rev. rewrite rev_involutive.
    left. reflexivity.
  - intros H.
    assert (El : lstrip s = []).
    { clear -H. induction s as [|c s IH]; [reflexivity|].
      simpl in H. apply andb_true_iff in H. destruct H as [Hc Hs].
      simpl. rewrite Hc. auto. }
    rewrite El. reflexivity.
Qed.

End Tokenizer.

(* ================================================================== *)
(** ** Words: silence, skipped characters, units and symbols *)

Section Words.

Lemma filter_all {A} (f : A -> bool) (l : list A) :
  Forall (fun x => f x = true) l -> filter f l = l.
Proof.
  induction 1 as [|x l Hx _ IH]; [reflexivity|].
  simpl. rewrite Hx, IH. reflexivity.
Qed.

Lemma symbols_of_units_clean (w : str) :
  Forall (fun sym => clean_symbol sym = true)
         (map buckwalter_to_ipa_phoneme (extract_phonemes w)).
Proof.
  apply Forall_forall. intros sym H. apply in_map_iff in H.
  destruct H as (u & <- & Hu). apply all_units_clean.
  pose proof (extract_phonemes_units w) as Hw.
  rewrite Forall_forall in Hw. apply Hw, Hu.
Qed.

Lemma single_char_length (c : char) : List.length (single_char c) <= 1.
Proof.
  unfold single_char.
  destruct (get N.eqb unambiguousConsonantMap c); [simpl; lia|].
  destruct (get N.eqb vowelMap c); [simpl; lia|].
  destruct (char_in c consonants || char_in c [ch "w"; ch "y"]); simpl; lia.
Qed.

Lemma extract_phonemes_length (w : str) :
  List.length (extract_phonemes w) <= List.length w.
Proof.
  induction w as [| a | a b l IHl IHbl] using list_ind2.
  - simpl; lia.
  - simpl. rewrite app_nil_r. apply single_char_length.
  - change (extract_phonemes (a :: b :: l))
      with (if str_in [a; b] two_char_units
            then [a; b] :: extract_phonemes l
            else single_char a ++ extract_phonemes (b :: l)).
    destruct (str_in [a; b] two_char_units).
    + simpl in *. lia.
    + rewrite length_app. pose proof (single_char_length a).
      simpl in *. lia.
Qed.

End Words.

(** X1. The silence test in the loop of [process_utterance] changes
    nothing: on every word, whitespace-only words included, the loop
    appends what [process_word_simple] returns. *)
Theorem word_guard_subsumed (word : str) :
  word_phonemes word = process_word_simple word.
Proof.
  unfold word_phonemes, process_word_simple.
  destruct (str_in word [lit "-"; sil]) eqn:Es.
  - rewrite orb_true_r. reflexivity.
  - rewrite orb_false_r. cbn [orb].
    destruct (falsy (strip word)) eqn:Ew; [|reflexivity].
    destruct (falsy word) eqn:Ef; [reflexivity|].
    apply strip_falsy in Ew. cbv zeta.
    assert (Hfix : arabic_to_buckwalter word = word).
    { apply arabic_to_buckwalter_fixed. unfold non_arabic.
      rewrite forallb_forall in *. intros c Hc.
      rewrite isspace_not_key; [reflexivity | auto]. }
    rewrite Hfix, extract_phonemes_all_skipped; [reflexivity|].
    rewrite forallb_forall in *. intros c Hc. apply isspace_skipped; auto.
Qed.

(** X2. A character in none of the tokenizer's tables, and neither [I] nor
    [U], is passed over wherever the cursor meets it; a word whose
    transliteration holds only such characters becomes ['sil']. *)
Theorem unclassified_characters_dropped (c : char) (w : str) :
  (skipped c = true -> extract_phonemes (c :: w) = extract_phonemes w) /\
  (forallb skipped (arabic_to_buckwalter w) = true ->
   process_word_simple w = [sil]).
Proof.
  split; [apply extract_phonemes_skip|].
  intros H. unfold process_word_simple.
  destruct (falsy w || str_in w [lit "-"; sil]); [reflexivity|].
  cbv zeta. rewrite extract_phonemes_all_skipped by assumption. reflexivity.
Qed.

Lemma unclassified_characters_dropped_witness :
  extract_phonemes (lit "~b") = extract_phonemes (lit "b") /\
  process_word_simple (lit "2024!") = [sil].
Proof.
  split.
  - apply (proj1 (unclassified_characters_dropped (ch "~") (lit "b"))).
    vm_compute; reflexivity.
  - apply (proj2 (unclassified_characters_dropped 0%N (lit "2024!"))).
    vm_compute; reflexivity.
Defined.

(** X3. The emptiness test on the mapped symbols never removes one: a word
    that is not a silence token and gives at least one unit yields exactly
    one symbol per unit, in order. *)
Theorem one_symbol_per_unit (word : str) :
  falsy word || str_in word [lit "-"; sil] = false ->
  extract_phonemes (arabic_to_buckwalter word) <> [] ->
  process_word_simple word
  = map buckwalter_to_ipa_phoneme
        (extract_phonemes (arabic_to_buckwalter word)) /\
  List.length (process_word_simple word)
  = List.length (extract_phonemes (arabic_to_buckwalter word)).
Proof.
  intros Hs Hu.
  assert (E : process_word_simple word
              = map buckwalter_to_ipa_phoneme
                    (extract_phonemes (arabic_to_buckwalter word))).
  { unfold process_word_simple. rewrite Hs. cbv zeta.
    rewrite filter_all.
    - destruct (extract_phonemes (arabic_to_buckwalter word));
        [congruence | reflexivity].
    - eapply Forall_impl; [|apply symbols_of_units_clean].
      intros sym H. apply clean_symbol_spec in H. destruct H as [H _].
      destruct sym; [congruence | reflexivity]. }
  split; [exact E | rewrite E; apply length_map].
Qed.

Lemma one_symbol_per_unit_witness :
  process_word_simple shukran = [[esh]; lit "k"; lit "r"; [ch "a"; long]] /\
  List.length (process_word_simple shukran) = 4.
Proof.
  destruct (one_symbol_per_unit shukran) as [H1 H2].
  - vm_compute; reflexivity.
  - vm_compute; discriminate.
  - split; [rewrite H1 | rewrite H2]; vm_compute; reflexivity.
Defined.

(** X4. The tokenizer only appends units that are keys of the symbol
    table, or [II] or [UU]; so every symbol of every output is ['sil'],
    ['II'], ['UU'] or a value of the symbol table, and the mapper's last
    line, which returns an unknown unit unchanged, is never reached from
    the pipeline. *)
Theorem emitted_symbols_closed (s w : str) :
  (forall u, In u (extract_phonemes w) ->
     get str_eqb buckwalter_to_ipa u = None ->
     (u = lit "II" \/ u = lit "UU") /\
     buckwalter_to_ipa_phoneme u = u /\
     exists c, u = [c; c]) /\
  (forall phones sym,
     In phones (utterance_phonemes s) -> In sym phones ->
     In sym emitted_symbols).
Proof.
  split.
  - intros u Hu Hget.
    pose proof (extract_phonemes_units w) as Hw.
    rewrite Forall_forall in Hw. specialize (Hw _ Hu).
    assert (Hall : forallb (fun u =>
                      match get str_eqb buckwalter_to_ipa u with
                      | Some _ => true
                      | None => str_in u [lit "II"; lit "UU"]
                      end) all_units = true) by (vm_compute; reflexivity).
    rewrite forallb_forall in Hall. specialize (Hall _ Hw).
    rewrite Hget in Hall. apply str_in_In in Hall.
    destruct Hall as [<- | [<- | []]].
    + repeat split; [left; reflexivity | exists (ch "I"); reflexivity].
    + repeat split; [right; reflexivity | exists (ch "U"); reflexivity].
  - intros phones sym Hp Hs.
    unfold utterance_phonemes in Hp. cbv zeta in Hp.
    apply in_map_iff in Hp. destruct Hp as (word & <- & _).
    rewrite word_guard_subsumed in Hs. unfold process_word_simple in Hs.
    assert (Hsil : In sil emitted_symbols) by (left; reflexivity).
    destruct (falsy word || str_in word [lit "-"; sil]).
    { destruct Hs as [<- | []]. exact Hsil. }
    cbv zeta in Hs.
    destruct (filter _ _) as [|x l] eqn:E.
    { destruct Hs as [<- | []]. exact Hsil. }
    rewrite <- E in Hs. apply filter_In in Hs. destruct Hs as [Hs _].
    apply in_map_iff in Hs. destruct Hs as (u & <- & Hu).
    pose proof (extract_phonemes_units (arabic_to_buckwalter word)) as Hw.
    rewrite Forall_forall in Hw. specialize (Hw _ Hu).
    assert (Hall : forallb (fun u =>
                      str_in (buckwalter_to_ipa_phoneme u) emitted_symbols)
                      all_units = true) by (vm_compute; reflexivity).
    rewrite forallb_forall in Hall. apply str_in_In, Hall, Hw.
Qed.

Lemma emitted_symbols_closed_witness :
  buckwalter_to_ipa_phoneme (lit "II") = lit "II" /\
  In [esh] emitted_symbols.
Proof.
  destruct (emitted_symbols_closed shukran (lit "bII")) as [H1 H2]. split.
  - apply (H1 (lit "II")); vm_compute; auto.
  - apply (H2 [[esh]; lit "k"; lit "r"; [ch "a"; long]]).
    + vm_compute; auto.
    + simpl; auto.
Defined.

(** X5. Each of the five hamza letters, wherever the cursor meets it,
    yields the one unit [<], whose symbol is the glottal stop; and each of
    the five Arabic hamza letters transliterates to one of them. *)
Theorem hamza_collapse (h : char) (w : str) :
  (In h hamza_letters ->
   extract_phonemes (h :: w) = lit "<" :: extract_phonemes w) /\
  buckwalter_to_ipa_phoneme (lit "<") = [glottal] /\
  (In h arabic_hamza_letters -> In (translit h) hamza_letters).
Proof.
  split; [|split].
  - intros Hh.
    assert (Hs : single_char h = [lit "<"]).
    { simpl in Hh.
      repeat (destruct Hh as [<- | Hh]; [vm_compute; reflexivity|]).
      destruct Hh. }
    destruct w as [|d w]; [simpl; rewrite Hs; reflexivity|].
    change (extract_phonemes (h :: d :: w))
      with (if str_in [h; d] two_char_units
            then [h; d] :: extract_phonemes w
            else single_char h ++ extract_phonemes (d :: w)).
    destruct (str_in [h; d] two_char_units) eqn:E; [|rewrite Hs; reflexivity].
    exfalso. apply str_in_In in E. simpl in E, Hh.
    repeat (destruct E as [E | E];
            [injection E as <- <-;
             repeat (destruct Hh as [Hh | Hh]; [discriminate Hh|]);
             destruct Hh|]).
    destruct E.
  - vm_compute; reflexivity.
  - intros Hh. simpl in Hh.
    repeat (destruct Hh as [<- | Hh]; [vm_compute; tauto|]).
    destruct Hh.
Qed.

Lemma hamza_collapse_witness :
  extract_phonemes (lit "}b") = lit "<" :: extract_phonemes (lit "b") /\
  In (translit 0x0624%N) hamza_letters.
Proof.
  split.
  - apply (proj1 (hamza_collapse (ch "}") (lit "b"))). simpl; auto.
  - apply (proj2 (proj2 (hamza_collapse 0x0624%N []))). simpl; auto.
Defined.

(** X6. A word never yields more units than it has characters, every unit
    has one or two characters, and [process_word_simple] returns at least
    one symbol and at most one per character. *)
Theorem word_size_bounds (word : str) :
  List.length (extract_phonemes word) <= List.length word /\
  Forall (fun u => 1 <= List.length u <= 2) (extract_phonemes word) /\
  1 <= List.length (process_word_simple word) <= Nat.max 1 (List.length word).
Proof.
  split; [apply extract_phonemes_length | split].
  - eapply Forall_impl; [|apply extract_phonemes_units].
    intros u Hu.
    assert (Hall : forallb (fun u => Nat.leb 1 (List.length u)
                                     && Nat.leb (List.length u) 2)
                           all_units = true) by (vm_compute; reflexivity).
    rewrite forallb_forall in Hall. specialize (Hall _ Hu).
    apply andb_true_iff in Hall. destruct Hall as [H1 H2].
    apply Nat.leb_le in H1, H2. lia.
  - assert (Hm : 1 <= Nat.max 1 (List.length word)
                 /\ List.length word <= Nat.max 1 (List.length word)) by lia.
    destruct Hm as [Hm1 Hm2]. revert Hm1 Hm2.
    generalize (Nat.max 1 (List.length word)). intros m Hm1 Hm2.
    unfold process_word_simple.
    destruct (falsy word || str_in word [lit "-"; sil]);
      [cbn [List.length]; lia|].
    cbv zeta. rewrite filter_all.
    + pose proof (extract_phonemes_length (arabic_to_buckwalter word)) as H.
      rewrite <- (length_map buckwalter_to_ipa_phoneme) in H.
      assert (Hl : List.length (arabic_to_buckwalter word) = List.length word)
        by (rewrite arabic_to_buckwalter_map; apply length_map).
      rewrite Hl in H.
      destruct (map _ _) as [|x l]; cbn [List.length] in *; lia.
    + eapply Forall_impl; [|apply symbols_of_units_clean].
      intros sym H. apply clean_symbol_spec in H. destruct H as [H _].
      destruct sym; [congruence | reflexivity].
Qed.

(* ================================================================== *)
(** ** Further properties of normalisation and splitting *)

Section NormaliseMore.

(** When every replacement satisfies [q] and every character left in
    place does, so does the result, whatever the input. *)
Lemma rewrite_scan_establishes (m : str -> option (nat * str)) (q : char -> bool) :
  (forall r n out, m r = Some (n, out) -> forallb q out = true) ->
  (forall c r, m (c :: r) = None -> q c = true) ->
  forall s k, forallb q (rewrite_scan m k s) = true.
Proof.
  intros Hsome Hnone s. induction s as [|c s IH]; intros k; [reflexivity|].
  simpl. destruct k as [|k]; [|apply IH].
  destruct (m (c :: s)) as [[n out]|] eqn:E.
  - rewrite forallb_app, (Hsome _ _ _ E), IH. reflexivity.
  - simpl. rewrite (Hnone _ _ E), IH. reflexivity.
Qed.

(** Replacing a single character by a text without it removes it. *)
Lemma replace_removes (c : char) (old new s : str) :
  old = [c] ->
  forallb (fun x => negb (N.eqb x c)) new = true ->
  forallb (fun x => negb (N.eqb x c)) (replace old new s) = true.
Proof.
  intros -> Hnew. unfold replace. apply rewrite_scan_establishes.
  - intros r n out E. destruct (startswith [c] r); [|discriminate].
    injection E as _ <-. exact Hnew.
  - intros x r E. cbn [startswith] in E.
    destruct (N.eqb c x) eqn:Ex; [discriminate E|].
    rewrite N.eqb_sym, Ex. reflexivity.
Qed.

Lemma normalise_removes (c : char) (s : str) :
  In c removed_chars ->
  forallb (fun x => negb (N.eqb x c)) (normalise s) = true.
Proof.
  intros Hc. unfold normalise. cbv zeta. simpl in Hc.
  repeat (destruct Hc as [<- | Hc];
          [repeat (apply re_sub_forallb; [vm_compute; reflexivity|]);
           repeat first
             [ apply replace_removes; [reflexivity | vm_compute; reflexivity]
             | apply replace_forallb; [vm_compute; reflexivity|] ] |]).
  destruct Hc.
Qed.

Lemma split_nonempty (sep : char) (s : str) : split sep s <> [].
Proof.
  intros H. apply (f_equal (@List.length str)) in H.
  rewrite split_length in H. discriminate H.
Qed.

Lemma split_no_sep (sep : char) (s w : str) :
  In w (split sep s) -> forallb (fun c => negb (N.eqb c sep)) w = true.
Proof.
  revert w. induction s as [|c s IH]; intros w Hw.
  - destruct Hw as [<- | []]. reflexivity.
  - simpl in Hw. destruct (N.eqb c sep) eqn:Ec.
    + destruct Hw as [<- | Hw]; [reflexivity | auto].
    + destruct (split sep s) as [|w0 ws] eqn:E.
      * destruct Hw as [<- | []]. simpl. rewrite Ec. reflexivity.
      * destruct Hw as [<- | Hw].
        -- simpl. rewrite Ec. apply IH. left; reflexivity.
        -- apply IH. right; assumption.
Qed.

Lemma join_split (sep : char) (s : str) : join [sep] (split sep s) = s.
Proof.
  induction s as [|c s IH]; [reflexivity|].
  simpl. destruct (N.eqb c sep) eqn:Ec.
  - apply N.eqb_eq in Ec. subst c.
    pose proof (split_nonempty sep s) as Hne.
    destruct (split sep s) as [|w ws]; [exfalso; apply Hne; reflexivity|].
    rewrite join_cons2, IH. reflexivity.
  - destruct (split sep s) as [|w ws] eqn:E.
    + exfalso. eapply split_nonempty, E.
    + destruct ws as [|w' ws].
      * cbn [join] in *. f_equal. exact IH.
      * rewrite join_cons2 in *. rewrite <- IH. reflexivity.
Qed.

End NormaliseMore.

(** X7. Whatever the input, the normalised text holds no tatweel, no [o],
    no nunation marker [F], [N], [K] and no madda [|]. *)
Theorem normalise_removes_markers (s : str) (c : char) :
  In c removed_chars ->
  ~ In c (normalise s) /\
  forall word, In word (preprocess_utterance s) -> ~ In c word.
Proof.
  intros Hc. pose proof (normalise_removes c s Hc) as H.
  assert (Hno : forall t, forallb (fun x => negb (N.eqb x c)) t = true ->
                          ~ In c t).
  { intros t Ht Hin. rewrite forallb_forall in Ht. specialize (Ht _ Hin).
    rewrite N.eqb_refl in Ht. discriminate Ht. }
  split; [apply Hno, H|].
  intros word Hw. apply Hno. unfold preprocess_utterance in Hw.
  eapply split_forallb; [exact H | exact Hw].
Qed.

Lemma normalise_removes_markers_witness :
  ~ In (ch "F") (normalise (lit "kitAbAF")).
Proof.
  assert (H : In (ch "F") removed_chars) by (do 2 right; left; reflexivity).
  exact (proj1 (normalise_removes_markers (lit "kitAbAF") (ch "F") H)).
Defined.

(** X8. [preprocess_utterance] always returns at least one word, no word
    holds a space, and joining the words with single spaces gives back the
    normalised text. *)
Theorem preprocess_utterance_words (s : str) :
  preprocess_utterance s <> [] /\
  (forall word, In word (preprocess_utterance s) -> ~ In space word) /\
  join [space] (preprocess_utterance s) = normalise s.
Proof.
  unfold preprocess_utterance. split; [apply split_nonempty | split].
  - intros word Hw Hin. apply split_no_sep in Hw.
    rewrite forallb_forall in Hw. specialize (Hw _ Hin).
    rewrite N.eqb_refl in Hw. discriminate Hw.
  - apply join_split.
Qed.

Lemma preprocess_utterance_words_witness :
  ~ In space (lit "b") /\
  join [space] (preprocess_utterance (lit "Al b")) = lit "Al b".
Proof.
  destruct (preprocess_utterance_words (lit "Al b")) as (_ & H2 & H3). split.
  - apply H2. vm_compute; auto.
  - rewrite H3. vm_compute; reflexivity.
Defined.

(* ================================================================== *)
(** ** Rules that do not fire, and rules that stay inside a word *)

Section Locality.

Variable q : char -> bool.

Lemma startswith_forallb (p r : str) :
  startswith p r = true -> forallb q r = true -> forallb q p = true.
Proof.
  revert r. induction p as [|x p IH]; intros [|y r]; simpl;
    try reflexivity; try discriminate.
  rewrite !andb_true_iff, N.eqb_eq. intros [-> Hp] [Hy Hr].
  split; [assumption | eauto].
Qed.

Lemma rewrite_scan_none (m : str -> option (nat * str)) :
  (forall r, forallb q r = true -> m r = None) ->
  forall s, forallb q s = true -> rewrite_scan m 0 s = s.
Proof.
  intros Hm s. induction s as [|c s IH]; intros Hs; [reflexivity|].
  simpl. rewrite (Hm _ Hs). simpl in Hs. apply andb_true_iff in Hs.
  rewrite IH; [reflexivity | apply Hs].
Qed.

(** A pattern with a character that the text does not hold leaves the
    text as it is. *)
Lemma replace_plain (old new s : str) :
  forallb q old = false -> forallb q s = true -> replace old new s = s.
Proof.
  intros Hold Hs. unfold replace. destruct old as [|x old]; [discriminate|].
  apply rewrite_scan_none; [|assumption].
  intros r Hr. destruct (startswith (x :: old) r) eqn:E; [|reflexivity].
  rewrite (startswith_forallb _ _ E Hr) in Hold. discriminate.
Qed.

Lemma match_here_literals (p : list atom) (r : str) (g : list char) :
  match_here p r = Some g -> forallb q r = true -> literals_forallb q p = true.
Proof.
  revert r g. induction p as [|a p IH]; intros r g; [reflexivity|].
  simpl. destruct r as [|c r]; [discriminate|].
  destruct (atom_match a c) eqn:Ea; [|discriminate].
  destruct (match_here p r) as [g'|] eqn:E; [|discriminate].
  intros _ H. simpl in H. apply andb_true_iff in H. destruct H as [Hc Hr].
  unfold literals_forallb in *. rewrite (IH _ _ E Hr), andb_true_r.
  destruct a as [c'|ex]; [|reflexivity].
  simpl in Ea. apply N.eqb_eq in Ea. subst. exact Hc.
Qed.

Lemma re_sub_plain (r : regex) (t : list titem) (s : str) :
  literals_forallb q (atoms r) = false -> forallb q s = true ->
  re_sub r t s = s.
Proof.
  intros Hlit Hs.
  assert (Hm : forall x, forallb q x = true -> re_match r t x = None).
  { intros x Hx. unfold re_match.
    destruct (match_here (atoms r) x) as [g|] eqn:E; [|reflexivity].
    rewrite (match_here_literals _ _ _ E Hx) in Hlit. discriminate. }
  unfold re_sub. destruct (anchored r).
  - rewrite (Hm _ Hs). reflexivity.
  - apply rewrite_scan_none; assumption.
Qed.

End Locality.

Section WordByWord.

Variable sep : char.

Lemma startswith_app (p r x : str) :
  startswith p r = true -> startswith p (r ++ x) = true.
Proof.
  revert r. induction p as [|a p IH]; intros [|b r]; simpl;
    try reflexivity; try discriminate.
  rewrite !andb_true_iff. intros [-> H]. auto.
Qed.

Lemma startswith_before_sep (p r t : str) :
  forallb (fun c => negb (N.eqb c sep)) p = true ->
  startswith p (r ++ sep :: t) = true ->
  startswith p r = true /\ List.length p <= List.length r.
Proof.
  revert r. induction p as [|a p IH]; intros r Hp H.
  - split; [reflexivity | simpl; lia].
  - simpl in Hp. apply andb_true_iff in Hp. destruct Hp as [Ha Hp].
    destruct r as [|b r].
    + simpl in H. apply andb_true_iff in H. destruct H as [H _].
      apply N.eqb_eq in H. subst a. rewrite N.eqb_refl in Ha. discriminate.
    + simpl in H. apply andb_true_iff in H. destruct H as [Hab H].
      destruct (IH r Hp H) as [H1 H2]. simpl. rewrite Hab, H1.
      split; [reflexivity | lia].
Qed.

(** A scan whose matches never reach the separator works on the two
    sides of the separator independently. *)
Lemma rewrite_scan_split (m : str -> option (nat * str)) (t : str) :
  (forall r n out, m (r ++ sep :: t) = Some (n, out) ->
     m r = Some (n, out) /\ 1 <= n <= List.length r) ->
  (forall r, m (r ++ sep :: t) = None -> m r = None) ->
  forall s k, k <= List.length s ->
    rewrite_scan m k (s ++ sep :: t)
    = rewrite_scan m k s ++ sep :: rewrite_scan m 0 t.
Proof.
  intros Hsome Hnone s. induction s as [|c s IH]; intros k Hk.
  - simpl in Hk. assert (k = 0) by lia. subst k.
    change ([] ++ sep :: t) with (sep :: t). cbn [rewrite_scan].
    destruct (m (sep :: t)) as [[n out]|] eqn:E; [|reflexivity].
    destruct (Hsome [] n out E) as [_ Hn]. simpl in Hn. lia.
  - change ((c :: s) ++ sep :: t) with (c :: (s ++ sep :: t)).
    cbn [rewrite_scan]. destruct k as [|k].
    + change (c :: (s ++ sep :: t)) with ((c :: s) ++ sep :: t).
      destruct (m ((c :: s) ++ sep :: t)) as [[n out]|] eqn:E.
      * destruct (Hsome _ _ _ E) as [E' Hn]. rewrite E'.
        rewrite IH by (simpl in Hn; lia).
        rewrite <- app_assoc. reflexivity.
      * rewrite (Hnone _ E), IH by lia. reflexivity.
    + apply IH. simpl in Hk. lia.
Qed.

Lemma replace_split (old new s t : str) :
  old <> [] ->
  forallb (fun c => negb (N.eqb c sep)) old = true ->
  replace old new (s ++ sep :: t)
  = replace old new s ++ sep :: replace old new t.
Proof.
  intros Hne Hold. unfold replace.
  destruct old as [|x old]; [congruence|].
  apply rewrite_scan_split; [| |lia].
  - intros r n out E.
    destruct (startswith (x :: old) (r ++ sep :: t)) eqn:Es; [|discriminate].
    injection E as <- <-.
    destruct (startswith_before_sep _ _ _ Hold Es) as [H1 H2].
    rewrite H1. split; [reflexivity | simpl in *; lia].
  - intros r E.
    destruct (startswith (x :: old) r) eqn:Es; [|reflexivity].
    rewrite (startswith_app _ _ (sep :: t) Es) in E. discriminate.
Qed.

Lemma split_app_sep (a b : str) :
  split sep (a ++ sep :: b) = split sep a ++ split sep b.
Proof.
  induction a as [|c a IH].
  - simpl. rewrite N.eqb_refl. reflexivity.
  - simpl. rewrite IH. destruct (N.eqb c sep); [reflexivity|].
    destruct (split sep a) as [|w ws] eqn:E; [|reflexivity].
    exfalso. eapply split_nonempty, E.
Qed.

End WordByWord.

Section Composition.

Lemma normalise_plain (s : str) : forallb plain s = true -> normalise s = s.
Proof.
  intros Hs. unfold normalise. cbv zeta.
  repeat
    match goal with
    | |- context [replace ?o ?n s] =>
        rewrite (replace_plain plain o n s)
          by first [assumption | vm_compute; reflexivity]
    | |- context [re_sub ?r ?t s] =>
        rewrite (re_sub_plain plain r t s)
          by first [assumption | vm_compute; reflexivity]
    end.
  reflexivity.
Qed.

(** On a text without [A], [>], [<] and [|], only the six rules for
    tatweel, [o], [aY], [F], [N] and [K] can fire. *)
Lemma normalise_boundary_free (x : str) :
  forallb boundary_free x = true ->
  normalise x
  = replace (lit "K") (lit "in")
      (replace (lit "N") (lit "un")
         (replace (lit "F") (lit "an")
            (replace (lit "aY") (lit "Y")
               (replace (lit "o") [] (replace [tatweel] [] x))))) /\
  forallb boundary_free (normalise x) = true.
Proof.
  intros Hx. unfold normalise. cbv zeta.
  rewrite (replace_plain boundary_free (lit "AF") (lit "F") x)
    by first [assumption | vm_compute; reflexivity].
  pose proof (replace_forallb boundary_free [tatweel] [] x eq_refl Hx) as H2.
  set (x2 := replace [tatweel] [] x) in *.
  pose proof (replace_forallb boundary_free (lit "o") [] x2 eq_refl H2) as H3.
  set (x3 := replace (lit "o") [] x2) in *.
  rewrite (replace_plain boundary_free (lit "aA") (lit "A") x3)
    by first [assumption | vm_compute; reflexivity].
  pose proof (replace_forallb boundary_free (lit "aY") (lit "Y") x3 eq_refl H3)
    as H5.
  set (x5 := replace (lit "aY") (lit "Y") x3) in *.
  rewrite (replace_plain boundary_free (lit " A") (lit " ") x5)
    by first [assumption | vm_compute; reflexivity].
  pose proof (replace_forallb boundary_free (lit "F") (lit "an") x5 eq_refl H5)
    as H7.
  set (x7 := replace (lit "F") (lit "an") x5) in *.
  pose proof (replace_forallb boundary_free (lit "N") (lit "un") x7 eq_refl H7)
    as H8.
  set (x8 := replace (lit "N") (lit "un") x7) in *.
  pose proof (replace_forallb boundary_free (lit "K") (lit "in") x8 eq_refl H8)
    as H9.
  set (x9 := replace (lit "K") (lit "in") x8) in *.
  rewrite (replace_plain boundary_free (lit "|") (lit ">A") x9)
    by first [assumption | vm_compute; reflexivity].
  repeat
    match goal with
    | |- context [re_sub ?r ?t x9] =>
        rewrite (re_sub_plain boundary_free r t x9)
          by first [assumption | vm_compute; reflexivity]
    end.
  split; [reflexivity | assumption].
Qed.

Lemma normalise_split (s t : str) :
  forallb boundary_free s = true -> forallb boundary_free t = true ->
  normalise (s ++ space :: t) = normalise s ++ space :: normalise t.
Proof.
  intros Hs Ht.
  assert (Hst : forallb boundary_free (s ++ space :: t) = true).
  { rewrite forallb_app, Hs. simpl. exact Ht. }
  destruct (normalise_boundary_free _ Hs) as [-> _].
  destruct (normalise_boundary_free _ Ht) as [-> _].
  destruct (normalise_boundary_free _ Hst) as [-> _].
  rewrite !replace_split by (discriminate || reflexivity).
  reflexivity.
Qed.

Lemma final_sequence_app (p1 p2 : list (list str)) :
  p1 <> [] -> p2 <> [] ->
  final_sequence (p1 ++ p2)
  = final_sequence p1 ++ separator ++ final_sequence p2.
Proof.
  intros H1 H2. unfold final_sequence. rewrite map_app.
  apply join_app; intros H; apply map_eq_nil in H; contradiction.
Qed.

Lemma translit_injective_on_keys (a b : char) :
  is_arabic_key a = true -> is_arabic_key b = true ->
  translit a = translit b -> a = b.
Proof.
  intros Ha Hb E.
  assert (Hin : forall c, is_arabic_key c = true ->
                          In c (map fst arabic_to_buckw_dict)).
  { intros c Hc. unfold is_arabic_key in Hc.
    destruct (get N.eqb arabic_to_buckw_dict c) eqn:Eg; [|discriminate].
    eapply get_In_keys, Eg. }
  assert (Hall : forallb (fun k1 =>
                   forallb (fun k2 =>
                     implb (N.eqb (translit k1) (translit k2)) (N.eqb k1 k2))
                     (map fst arabic_to_buckw_dict))
                   (map fst arabic_to_buckw_dict) = true)
    by (vm_compute; reflexivity).
  rewrite forallb_forall in Hall. specialize (Hall _ (Hin _ Ha)).
  rewrite forallb_forall in Hall. specialize (Hall _ (Hin _ Hb)).
  rewrite E, N.eqb_refl in Hall. simpl in Hall. apply N.eqb_eq, Hall.
Qed.

End Composition.

(** X9. A text that holds none of the characters the rules look for ([A],
    [F], [N], [K], [o], tatweel, [|], [>], [<], [Y]) is left unchanged by
    the normalisation, and its words are its space-separated pieces. *)
Theorem normalise_identity_on_plain (s : str) :
  forallb plain s = true ->
  normalise s = s /\ preprocess_utterance s = split space s.
Proof.
  intros H. unfold preprocess_utterance.
  rewrite (normalise_plain s H). split; reflexivity.
Qed.

Lemma normalise_identity_on_plain_witness :
  normalise (lit "kyf Hlk") = lit "kyf Hlk" /\
  preprocess_utterance (lit "kyf Hlk") = [lit "kyf"; lit "Hlk"].
Proof.
  split.
  - apply (proj1 (normalise_identity_on_plain (lit "kyf Hlk") eq_refl)).
  - rewrite (proj2 (normalise_identity_on_plain (lit "kyf Hlk") eq_refl)).
    reflexivity.
Defined.

(** X10. The transliterator keeps the length of its input, works
    character by character across a concatenation, and maps different
    texts made of Arabic table letters to different results. *)
Theorem arabic_to_buckwalter_structure (s t : str) :
  List.length (arabic_to_buckwalter s) = List.length s /\
  arabic_to_buckwalter (s ++ t)
  = arabic_to_buckwalter s ++ arabic_to_buckwalter t /\
  (forallb is_arabic_key s = true -> forallb is_arabic_key t = true ->
   arabic_to_buckwalter s = arabic_to_buckwalter t -> s = t).
Proof.
  rewrite !arabic_to_buckwalter_map. split; [apply length_map | split].
  - apply map_app.
  - revert t. induction s as [|a s IH]; intros [|b t]; simpl;
      try reflexivity; try discriminate.
    rewrite !andb_true_iff. intros [Ha Hs] [Hb Ht] E.
    injection E as E1 E2.
    rewrite (translit_injective_on_keys a b Ha Hb E1), (IH t Hs Ht E2).
    reflexivity.
Qed.

Lemma arabic_to_buckwalter_structure_witness :
  shukran = [0x0634; 0x0643; 0x0631; 0x0627]%N.
Proof.
  apply (proj2 (proj2 (arabic_to_buckwalter_structure
                         shukran [0x0634; 0x0643; 0x0631; 0x0627]%N)));
    vm_compute; reflexivity.
Defined.

(** X11. When the transliterations of two texts hold none of [A], [>],
    [<] and [|], processing the two texts with a space between them gives
    the two outputs with the word separator between them. *)
Theorem process_utterance_words_independent (s t : str) :
  forallb boundary_free (arabic_to_buckwalter s) = true ->
  forallb boundary_free (arabic_to_buckwalter t) = true ->
  utterance_phonemes (s ++ space :: t)
  = utterance_phonemes s ++ utterance_phonemes t /\
  process_utterance (PyStr (s ++ space :: t))
  = process_utterance (PyStr s) ++ separator ++ process_utterance (PyStr t).
Proof.
  intros Hs Ht.
  assert (E : utterance_phonemes (s ++ space :: t)
              = utterance_phonemes s ++ utterance_phonemes t).
  { assert (Ha : arabic_to_buckwalter (s ++ space :: t)
                 = arabic_to_buckwalter s ++ space :: arabic_to_buckwalter t).
    { rewrite !arabic_to_buckwalter_map, map_app. reflexivity. }
    unfold utterance_phonemes, preprocess_utterance. cbv zeta.
    rewrite Ha, normalise_split, split_app_sep, map_app by assumption.
    reflexivity. }
  split; [exact E|].
  destruct (process_utterance_str (s ++ space :: t)) as [_ ->].
  destruct (process_utterance_str s) as [_ ->].
  destruct (process_utterance_str t) as [_ ->].
  rewrite E. apply final_sequence_app.
  - intros H. apply (f_equal (@List.length (list str))) in H.
    rewrite utterance_phonemes_length, split_length in H. discriminate H.
  - intros H. apply (f_equal (@List.length (list str))) in H.
    rewrite utterance_phonemes_length, split_length in H. discriminate H.
Qed.

Lemma process_utterance_words_independent_witness :
  process_utterance (PyStr (lit "ktb drs"))
  = process_utterance (PyStr (lit "ktb")) ++ separator
    ++ process_utterance (PyStr (lit "drs")).
Proof.
  apply (proj2 (process_utterance_words_independent (lit "ktb") (lit "drs")
                  eq_refl eq_refl)).
Defined.

(* ================================================================== *)
(** ** [str.strip] *)

Section Strip.

Lemma lstrip_app_space (pre s : str) :
  forallb isspace pre = true -> lstrip (pre ++ s) = lstrip s.
Proof.
  induction pre as [|c pre IH]; [reflexivity|].
  simpl. intros H. apply andb_true_iff in H. destruct H as [Hc Hp].
  rewrite Hc. auto.
Qed.

Lemma lstrip_idempotent (s : str) : lstrip (lstrip s) = lstrip s.
Proof.
  induction s as [|c s IH]; [reflexivity|].
  simpl. destruct (isspace c) eqn:E; [exact IH|].
  simpl. rewrite E. reflexivity.
Qed.

Lemma lstrip_cons (c : char) (s : str) :
  isspace c = false -> lstrip (c :: s) = c :: s.
Proof. intros H. simpl. rewrite H. reflexivity. Qed.

(** The stripped text begins with a character that is not whitespace,
    unless it is empty. *)
Lemma strip_head (s : str) (c : char) (r : str) :
  strip s = c :: r -> isspace c = false.
Proof.
  unfold strip. intros E.
  destruct (lstrip_suffix (rev (lstrip s))) as (pre & Hpre & Hsp).
  set (b := lstrip (rev (lstrip s))) in *.
  assert (Ha : lstrip s = rev b ++ rev pre).
  { rewrite <- rev_app_distr, <- Hpre, rev_involutive. reflexivity. }
  rewrite E in Ha. simpl in Ha.
  eapply lstrip_head. exact Ha.
Qed.

(** Whitespace added after a stripped text is stripped again. *)
Lemma strip_strip_app (s post : str) :
  forallb isspace post = true -> strip (strip s ++ post) = strip s.
Proof.
  intros Hpost. destruct (strip s) as [|c r] eqn:E.
  - simpl. unfold strip.
    assert (H : lstrip post = []).
    { rewrite <- (app_nil_r post), lstrip_app_space by assumption.
      reflexivity. }
    rewrite H. reflexivity.
  - pose proof (strip_head _ _ _ E) as Hc.
    assert (Hb : lstrip (rev (c :: r)) = rev (c :: r)).
    { rewrite <- E. unfold strip. rewrite rev_involutive.
      apply lstrip_idempotent. }
    unfold strip.
    change ((c :: r) ++ post) with (c :: (r ++ post)).
    rewrite lstrip_cons by assumption.
    change (c :: (r ++ post)) with ((c :: r) ++ post).
    rewrite rev_app_distr, lstrip_app_space.
    + rewrite Hb. apply rev_involutive.
    + rewrite forallb_forall in *. intros x Hx. apply Hpost.
      apply in_rev. exact Hx.
Qed.

Lemma strip_idempotent (s : str) : strip (strip s) = strip s.
Proof.
  rewrite <- (app_nil_r (strip s)) at 1. apply strip_strip_app. reflexivity.
Qed.

End Strip.

(* ================================================================== *)
(** ** [quick_audio_fix.py]: [clean_dataset] *)

Section CleanDataset.

Variable path_exists : str -> bool.
Variable sf_read : str -> read_result.

Local Abbreviation visit := (QuickAudioFix.visit path_exists sf_read).
Local Abbreviation run_loop := (QuickAudioFix.run_loop path_exists sf_read).
Local Abbreviation clean_dataset := (QuickAudioFix.clean_dataset path_exists sf_read).
Local Abbreviation keeps := (QuickAudioFix.keeps path_exists sf_read).
Local Abbreviation reports := (QuickAudioFix.reports path_exists sf_read).
Local Abbreviation corrupted_files := QuickAudioFix.corrupted_files.
Local Abbreviation valid_lines := QuickAudioFix.valid_lines.
Local Abbreviation total_lines := QuickAudioFix.total_lines.
Local Abbreviation cleaned_file := QuickAudioFix.cleaned_file.
Local Abbreviation corrupted_list := QuickAudioFix.corrupted_list.
Local Abbreviation result := QuickAudioFix.result.

(** The three ways an iteration can go: a blank line is passed over, a
    line is kept, or a line is reported with its number. *)
Lemma visit_cases (i : nat) (line : str) (st : QuickAudioFix.tally) :
  total_lines (visit i line st) = total_lines st + 1 /\
  ((falsy (strip line) = true /\
    valid_lines (visit i line st) = valid_lines st /\
    corrupted_files (visit i line st) = corrupted_files st) \/
   (falsy (strip line) = false /\ keeps (strip line) = true /\
    valid_lines (visit i line st) = valid_lines st ++ [strip line] /\
    corrupted_files (visit i line st) = corrupted_files st) \/
   (falsy (strip line) = false /\ keeps (strip line) = false /\
    valid_lines (visit i line st) = valid_lines st /\
    exists message,
      corrupted_files (visit i line st)
      = corrupted_files st ++ [(i + 1, audio_path_of (strip line), message)])).
Proof.
  unfold QuickAudioFix.visit, QuickAudioFix.keeps, audio_path_of. cbv zeta.
  destruct (falsy (strip line)) eqn:Ef.
  { split; [reflexivity | left; repeat split]. }
  assert (Hparts : Nat.ltb (List.length (split (ch "|") (strip line))) 1 = false)
    by (apply Nat.ltb_ge; rewrite split_length; lia).
  rewrite Hparts. cbn [negb andb].
  destruct (path_exists (nth 0 (split (ch "|") (strip line)) [])) eqn:Ep;
    cbn [negb andb].
  - destruct (QuickAudioFix.check_audio_file sf_read _) as [is_valid message].
    destruct is_valid; cbn [negb fst].
    + split; [reflexivity | right; left; repeat split].
    + split; [reflexivity | right; right; repeat split].
      exists message. reflexivity.
  - split; [reflexivity | right; right; repeat split].
    exists (lit "File not found"). reflexivity.
Qed.

Lemma run_loop_total (lines : list str) (i : nat) (st : QuickAudioFix.tally) :
  total_lines (run_loop i lines st) = total_lines st + List.length lines.
Proof.
  revert i st. induction lines as [|line rest IH]; intros i st; simpl; [lia|].
  rewrite IH. destruct (visit_cases i line st) as [-> _]. lia.
Qed.

Lemma run_loop_valid (lines : list str) (i : nat) (st : QuickAudioFix.tally) :
  valid_lines (run_loop i lines st)
  = valid_lines st ++ filter keeps (map strip lines).
Proof.
  revert i st. induction lines as [|line rest IH]; intros i st; simpl.
  - rewrite app_nil_r. reflexivity.
  - rewrite IH.
    destruct (visit_cases i line st)
      as [_ [(Hf & -> & _) | [(Hf & Hk & -> & _) | (Hf & Hk & -> & _)]]].
    + assert (Hk : keeps (strip line) = false)
        by (unfold QuickAudioFix.keeps; rewrite Hf; reflexivity).
      rewrite Hk. reflexivity.
    + rewrite Hk, <- app_assoc. reflexivity.
    + rewrite Hk. reflexivity.
Qed.

Lemma run_loop_corrupted_length (lines : list str) (i : nat)
    (st : QuickAudioFix.tally) :
  List.length (corrupted_files (run_loop i lines st))
  = List.length (corrupted_files st)
    + List.length (filter reports (map strip lines)).
Proof.
  revert i st. induction lines as [|line rest IH]; intros i st; simpl; [lia|].
  rewrite IH. unfold QuickAudioFix.reports at 2.
  destruct (visit_cases i line st)
    as [_ [(Hf & _ & ->) | [(Hf & Hk & _ & ->) | (Hf & Hk & _ & m & ->)]]];
    rewrite Hf; try rewrite Hk; cbn [negb andb].
  - reflexivity.
  - reflexivity.
  - rewrite length_app. simpl. lia.
Qed.

(** Every reported entry carries the number, counted from one, of a line
    that is not blank and was not kept, and the audio path of that line. *)
Lemma run_loop_corrupted_entries (lines : list str) (i : nat)
    (st : QuickAudioFix.tally) (n : nat) (p e : str) :
  In (n, p, e) (corrupted_files (run_loop i lines st)) ->
  In (n, p, e) (corrupted_files st) \/
  exists k line,
    n = i + k + 1 /\ nth_error lines k = Some line /\
    p = audio_path_of (strip line) /\ reports (strip line) = true.
Proof.
  revert i st. induction lines as [|line rest IH]; intros i st; simpl.
  - auto.
  - intros H. apply IH in H. destruct H as [H | (k & l & -> & Hk & -> & Hr)].
    + destruct (visit_cases i line st)
        as [_ [(Hf & _ & E) | [(Hf & Hk & _ & E) | (Hf & Hk & _ & m & E)]]];
        rewrite E in H; auto.
      apply in_app_or in H. destruct H as [H | [H | []]]; [auto|].
      injection H as <- <- <-. right. exists 0, line.
      repeat split; [lia|]. unfold QuickAudioFix.reports.
      rewrite Hf, Hk. reflexivity.
    + right. exists (S k), l. repeat split; [lia | assumption | assumption].
Qed.

End CleanDataset.

Section CleanDatasetProperties.

Variable path_exists : str -> bool.
Variable sf_read : str -> read_result.

Local Abbreviation run_loop := (QuickAudioFix.run_loop path_exists sf_read).
Local Abbreviation clean_dataset := (QuickAudioFix.clean_dataset path_exists sf_read).
Local Abbreviation keeps := (QuickAudioFix.keeps path_exists sf_read).
Local Abbreviation reports := (QuickAudioFix.reports path_exists sf_read).
Local Abbreviation start :=
  {| QuickAudioFix.corrupted_files := []; QuickAudioFix.valid_lines := [];
     QuickAudioFix.total_lines := 0 |}.

Lemma keeps_reports_partition (l : list str) :
  List.length (filter keeps l) + List.length (filter reports l)
  = List.length (filter (fun x => negb (falsy x)) l).
Proof.
  induction l as [|x l IH]; [reflexivity|].
  assert (Hk : keeps x = true -> falsy x = false).
  { unfold QuickAudioFix.keeps. destruct (falsy x); [discriminate | reflexivity]. }
  cbn [filter]. unfold QuickAudioFix.reports at 1.
  destruct (keeps x) eqn:Ek.
  - rewrite (Hk eq_refl). cbn [negb andb List.length]. lia.
  - destruct (falsy x); cbn [negb andb List.length]; lia.
Qed.

Lemma filter_none {A} (f : A -> bool) (l : list A) :
  (forall x, In x l -> f x = false) -> filter f l = [].
Proof.
  induction l as [|x l IH]; intros H; [reflexivity|].
  simpl. rewrite (H x) by (left; reflexivity).
  apply IH. intros y Hy. apply H. right. exact Hy.
Qed.

(** X12. [clean_dataset] raises [ZeroDivisionError] exactly when the
    manifest has no line at all, after it has written an empty cleaned
    file; otherwise it returns [True] exactly when no line was reported,
    and it writes the list of corrupted files exactly when it returns
    [False]. *)
Theorem clean_dataset_outcome (lines : list str) :
  (lines = [] ->
   QuickAudioFix.result (clean_dataset lines) = Raised ZeroDivisionError /\
   QuickAudioFix.cleaned_file (clean_dataset lines) = [] /\
   QuickAudioFix.corrupted_list (clean_dataset lines) = None) /\
  (lines <> [] ->
   exists ok,
     QuickAudioFix.result (clean_dataset lines) = Returned ok /\
     (ok = true <-> forall line, In line lines -> reports (strip line) = false) /\
     (ok = true <-> QuickAudioFix.corrupted_list (clean_dataset lines) = None)).
Proof.
  split.
  - intros ->. repeat split.
  - intros Hne. unfold QuickAudioFix.clean_dataset. cbv zeta.
    rewrite run_loop_total. cbn [QuickAudioFix.total_lines].
    destruct lines as [|l0 rest]; [congruence|].
    cbn [List.length Nat.add Nat.eqb].
    cbn [QuickAudioFix.result QuickAudioFix.corrupted_list].
    eexists. split; [reflexivity|].
    pose proof (run_loop_corrupted_length path_exists sf_read
                  (l0 :: rest) 0 start) as Hlen.
    cbn [QuickAudioFix.corrupted_files List.length Nat.add] in Hlen.
    split.
    + rewrite Nat.eqb_eq, Hlen. split.
      * intros H line Hin.
        destruct (reports (strip line)) eqn:E; [|reflexivity].
        assert (Hf : In (strip line) (filter reports (map strip (l0 :: rest))))
          by (apply filter_In; split; [apply in_map, Hin | exact E]).
        destruct (filter reports (map strip (l0 :: rest)));
          [destruct Hf | discriminate H].
      * intros H. rewrite filter_none; [reflexivity|].
        intros x Hx. apply in_map_iff in Hx. destruct Hx as (line & <- & Hin).
        auto.
    + destruct (QuickAudioFix.corrupted_files _); simpl;
        split; congruence.
Qed.

(** X13. The cleaned file holds, in order and each followed by a newline,
    exactly the stripped lines that are not blank, whose audio path exists
    and whose audio file is valid; every line that is not blank is either
    kept or reported, and the line counter counts every line. *)
Theorem clean_dataset_partition (lines : list str) :
  QuickAudioFix.cleaned_file (clean_dataset lines)
  = map (fun line => line ++ [newline]) (filter keeps (map strip lines)) /\
  List.length (QuickAudioFix.valid_lines (run_loop 0 lines start))
  + List.length (QuickAudioFix.corrupted_files (run_loop 0 lines start))
  = List.length (filter (fun line => negb (falsy (strip line))) lines) /\
  QuickAudioFix.total_lines (run_loop 0 lines start) = List.length lines.
Proof.
  split; [|split].
  - unfold QuickAudioFix.clean_dataset. cbv zeta.
    destruct (Nat.eqb _ 0); cbn [QuickAudioFix.cleaned_file];
      rewrite run_loop_valid; reflexivity.
  - rewrite run_loop_valid, run_loop_corrupted_length.
    cbn [QuickAudioFix.valid_lines QuickAudioFix.corrupted_files
         List.length app Nat.add].
    rewrite keeps_reports_partition.
    clear. induction lines as [|l ls IH]; [reflexivity|].
    simpl. destruct (falsy (strip l)); simpl; rewrite IH; reflexivity.
  - rewrite run_loop_total. reflexivity.
Qed.

(** X14. Every entry of the list of corrupted files carries the number,
    counted from one, of a manifest line that is not blank, and the audio
    path of that line; the file of that line is missing or not valid. *)
Theorem clean_dataset_line_numbers (lines : list str) (n : nat) (p e : str) :
  In (n, p, e) (QuickAudioFix.corrupted_files (run_loop 0 lines start)) ->
  exists line,
    1 <= n /\ nth_error lines (n - 1) = Some line /\
    p = audio_path_of (strip line) /\
    falsy (strip line) = false /\ keeps (strip line) = false.
Proof.
  intros H. apply run_loop_corrupted_entries in H.
  destruct H as [[] | (k & line & -> & Hk & -> & Hr)].
  exists line. replace (0 + k + 1 - 1) with k by lia.
  unfold QuickAudioFix.reports in Hr. apply andb_true_iff in Hr.
  destruct Hr as [Hf Hk']. apply negb_true_iff in Hf, Hk'.
  repeat split; try assumption. lia.
Qed.

(** X15. Cleaning the cleaned file again, with the same files on disk,
    writes the same cleaned file, reports nothing and, unless the file is
    empty, returns [True]. *)
Theorem clean_dataset_idempotent (lines : list str) :
  let cleaned := QuickAudioFix.cleaned_file (clean_dataset lines) in
  QuickAudioFix.cleaned_file (clean_dataset cleaned) = cleaned /\
  QuickAudioFix.corrupted_list (clean_dataset cleaned) = None /\
  (cleaned <> [] ->
   QuickAudioFix.result (clean_dataset cleaned) = Returned true).
Proof.
  cbv zeta.
  destruct (clean_dataset_partition lines) as [-> _].
  set (kept := filter keeps (map strip lines)).
  assert (Hstrip : map strip (map (fun line => line ++ [newline]) kept) = kept).
  { rewrite map_map. rewrite <- (map_id kept) at 2. apply map_ext_in.
    intros l Hl. subst kept. apply filter_In in Hl. destruct Hl as [Hl _].
    apply in_map_iff in Hl. destruct Hl as (x & <- & _).
    apply strip_strip_app. reflexivity. }
  assert (Hkeeps : forall l, In l kept -> keeps l = true).
  { intros l Hl. subst kept. apply filter_In in Hl. apply Hl. }
  assert (Hrep : filter reports kept = []).
  { apply filter_none. intros l Hl. unfold QuickAudioFix.reports.
    rewrite (Hkeeps l Hl). apply andb_false_r. }
  assert (Hcor : QuickAudioFix.corrupted_files
                   (run_loop 0 (map (fun line => line ++ [newline]) kept) start)
                 = []).
  { apply length_zero_iff_nil.
    rewrite run_loop_corrupted_length, Hstrip, Hrep. reflexivity. }
  split; [|split].
  - destruct (clean_dataset_partition
                (map (fun line => line ++ [newline]) kept)) as [-> _].
    rewrite Hstrip. f_equal. apply filter_all.
    apply Forall_forall. exact Hkeeps.
  - unfold QuickAudioFix.clean_dataset. cbv zeta. rewrite Hcor.
    destruct (Nat.eqb _ 0); reflexivity.
  - intros Hne. unfold QuickAudioFix.clean_dataset. cbv zeta.
    rewrite run_loop_total, Hcor, length_map.
    destruct kept; [exfalso; apply Hne; reflexivity | reflexivity].
Qed.

End CleanDatasetProperties.

Lemma clean_dataset_outcome_witness :
  QuickAudioFix.result
    (QuickAudioFix.clean_dataset (fun _ => true) (fun _ => ReadOk 3 16000) [])
  = Raised ZeroDivisionError /\
  exists ok,
    QuickAudioFix.result
      (QuickAudioFix.clean_dataset (fun p => str_eqb p (lit "a.wav"))
         (fun _ => ReadOk 3 16000) [lit "a.wav|x|1"; lit "b.wav|y|2"])
    = Returned ok.
Proof.
  split.
  - apply (proj1 (clean_dataset_outcome (fun _ => true)
                    (fun _ => ReadOk 3 16000) [])). reflexivity.
  - destruct (proj2 (clean_dataset_outcome (fun p => str_eqb p (lit "a.wav"))
                       (fun _ => ReadOk 3 16000)
                       [lit "a.wav|x|1"; lit "b.wav|y|2"]))
      as (ok & H & _); [discriminate|].
    exists ok. exact H.
Defined.

Lemma clean_dataset_line_numbers_witness :
  exists line,
    1 <= 2 /\
    nth_error [lit "a.wav|x|1"; lit "b.wav|y|2"] (2 - 1) = Some line /\
    lit "b.wav" = audio_path_of (strip line) /\
    falsy (strip line) = false /\
    QuickAudioFix.keeps (fun p => str_eqb p (lit "a.wav"))
      (fun _ => ReadOk 3 16000) (strip line) = false.
Proof.
  apply (clean_dataset_line_numbers (fun p => str_eqb p (lit "a.wav"))
           (fun _ => ReadOk 3 16000) [lit "a.wav|x|1"; lit "b.wav|y|2"]
           2 (lit "b.wav") (lit "File not found")).
  vm_compute. left. reflexivity.
Defined.

Lemma clean_dataset_idempotent_witness :
  QuickAudioFix.result
    (QuickAudioFix.clean_dataset (fun p => str_eqb p (lit "a.wav"))
       (fun _ => ReadOk 3 16000)
       (QuickAudioFix.cleaned_file
          (QuickAudioFix.clean_dataset (fun p => str_eqb p (lit "a.wav"))
             (fun _ => ReadOk 3 16000) [lit "a.wav|x|1"; lit "b.wav|y|2"])))
  = Returned true.
Proof.
  apply (proj2 (proj2 (clean_dataset_idempotent
                         (fun p => str_eqb p (lit "a.wav"))
                         (fun _ => ReadOk 3 16000)
                         [lit "a.wav|x|1"; lit "b.wav|y|2"]))).
  vm_compute. discriminate.
Defined.

(* ================================================================== *)
(** ** [debug_dataset.py]: [check_dataset_files] and the two
    [check_audio_file] *)

Section CheckDataset.

Variable path_exists : str -> bool.
Variable sf_read : str -> read_result.

Local Abbreviation visit := (DebugDataset.visit path_exists sf_read).
Local Abbreviation found := (DebugDataset.found path_exists).
Local Abbreviation missing := (DebugDataset.missing path_exists).
Local Abbreviation unreadable := (DebugDataset.unreadable path_exists sf_read).
Local Abbreviation corrupted_files := DebugDataset.corrupted_files.
Local Abbreviation checked_files := DebugDataset.checked_files.

Lemma debug_visit_lengths (st : DebugDataset.tally) (line : str) :
  List.length (checked_files (visit st line))
  = List.length (checked_files st)
    + (if found (strip line) then 1 else 0) /\
  List.length (corrupted_files (visit st line))
  = List.length (corrupted_files st)
    + (if missing (strip line) then 1 else 0)
    + (if unreadable (strip line) then 1 else 0).
Proof.
  unfold DebugDataset.visit, DebugDataset.unreadable, DebugDataset.found,
    DebugDataset.missing, audio_path_of.
  cbv zeta. destruct (falsy (strip line)) eqn:Ef; cbn [negb andb].
  { split; lia. }
  assert (Hparts : Nat.ltb (List.length (split (ch "|") (strip line))) 1 = false)
    by (apply Nat.ltb_ge; rewrite split_length; lia).
  rewrite Hparts.
  destruct (path_exists (nth 0 (split (ch "|") (strip line)) [])) eqn:Ep;
    cbn [negb andb].
  - destruct (DebugDataset.check_audio_file sf_read _) as [is_valid message].
    cbn [fst DebugDataset.checked_files DebugDataset.corrupted_files].
    rewrite length_app.
    destruct is_valid; cbn [negb]; [|rewrite length_app]; simpl; split; lia.
  - cbn [DebugDataset.checked_files DebugDataset.corrupted_files].
    rewrite length_app. simpl. split; lia.
Qed.

Lemma debug_fold_lengths (lines : list str) (st : DebugDataset.tally) :
  List.length (checked_files (fold_left visit lines st))
  = List.length (checked_files st)
    + List.length (filter found (map strip lines)) /\
  List.length (corrupted_files (fold_left visit lines st))
  = List.length (corrupted_files st)
    + List.length (filter missing (map strip lines))
    + List.length (filter unreadable (map strip lines)).
Proof.
  revert st. induction lines as [|line rest IH]; intros st.
  - simpl. split; lia.
  - cbn [fold_left map filter].
    destruct (IH (visit st line)) as [-> ->].
    destruct (debug_visit_lengths st line) as [-> ->].
    destruct (found (strip line)), (missing (strip line)),
      (unreadable (strip line)); cbn [List.length]; split; lia.
Qed.

(** X16. [check_dataset_files] raises [ZeroDivisionError] exactly when
    none of the lines it looks at names an existing file, as when the
    manifest is empty or [max_check] is zero; otherwise it returns the
    list of corrupted files. *)
Theorem check_dataset_files_outcome (lines : list str) (max_check : Z) :
  let seen := DebugDataset.lines_upto max_check lines in
  (DebugDataset.check_dataset_files path_exists sf_read lines max_check
   = Raised ZeroDivisionError <->
   forall line, In line seen -> found (strip line) = false) /\
  ((exists line, In line seen /\ found (strip line) = true) ->
   DebugDataset.check_dataset_files path_exists sf_read lines max_check
   = Returned (corrupted_files
                 (DebugDataset.run_loop path_exists sf_read lines max_check))) /\
  (max_check = 0%Z \/ lines = [] ->
   DebugDataset.check_dataset_files path_exists sf_read lines max_check
   = Raised ZeroDivisionError).
Proof.
  cbv zeta.
  assert (Hiff : List.length (checked_files
                   (DebugDataset.run_loop path_exists sf_read lines max_check))
                 = 0 <->
                 forall line,
                   In line (DebugDataset.lines_upto max_check lines) ->
                   found (strip line) = false).
  { unfold DebugDataset.run_loop.
    destruct (debug_fold_lengths (DebugDataset.lines_upto max_check lines)
                {| DebugDataset.corrupted_files := [];
                   DebugDataset.checked_files := [] |}) as [-> _].
    cbn [DebugDataset.checked_files List.length Nat.add]. split.
    - intros H line Hin.
      destruct (found (strip line)) eqn:E; [|reflexivity].
      assert (Hf : In (strip line)
                      (filter found (map strip
                         (DebugDataset.lines_upto max_check lines))))
        by (apply filter_In; split; [apply in_map, Hin | exact E]).
      destruct (filter found _); [destruct Hf | discriminate H].
    - intros H. rewrite filter_none; [reflexivity|].
      intros x Hx. apply in_map_iff in Hx. destruct Hx as (line & <- & Hin).
      auto. }
  unfold DebugDataset.check_dataset_files. cbv zeta.
  split; [|split].
  - rewrite <- Hiff.
    destruct (Nat.eqb _ 0) eqn:E.
    + apply Nat.eqb_eq in E. tauto.
    + apply Nat.eqb_neq in E. split; [discriminate | tauto].
  - intros (line & Hin & Hf).
    destruct (Nat.eqb _ 0) eqn:E; [|reflexivity].
    apply Nat.eqb_eq in E. pose proof (proj1 Hiff E _ Hin) as Hn.
    rewrite Hn in Hf. discriminate.
  - intros H.
    assert (Hseen : DebugDataset.lines_upto max_check lines = []).
    { destruct H as [-> | ->]; [reflexivity|].
      unfold DebugDataset.lines_upto.
      destruct (0 <=? max_check)%Z; simpl; try reflexivity;
        apply firstn_nil. }
    assert (E : List.length (checked_files
                  (DebugDataset.run_loop path_exists sf_read lines max_check))
                = 0).
    { apply Hiff. rewrite Hseen. intros line []. }
    rewrite E. reflexivity.
Qed.

(** X17. Missing files are counted as corrupted but not as checked: the
    number of corrupted files is the number of missing files plus the
    number of files read as not valid, and the number of checked files is
    the number of files found; so the numerator of the printed success
    rate, checked minus corrupted, is the number of valid files minus the
    number of missing ones, and can be negative. *)
Theorem check_dataset_files_counts (lines : list str) (max_check : Z) :
  let st := DebugDataset.run_loop path_exists sf_read lines max_check in
  let seen := map strip (DebugDataset.lines_upto max_check lines) in
  List.length (checked_files st) = List.length (filter found seen) /\
  List.length (corrupted_files st)
  = List.length (filter missing seen) + List.length (filter unreadable seen) /\
  (Z.of_nat (List.length (checked_files st))
   - Z.of_nat (List.length (corrupted_files st))
   = Z.of_nat (List.length (filter found seen))
     - Z.of_nat (List.length (filter unreadable seen))
     - Z.of_nat (List.length (filter missing seen)))%Z.
Proof.
  cbv zeta. unfold DebugDataset.run_loop.
  destruct (debug_fold_lengths (DebugDataset.lines_upto max_check lines)
              {| DebugDataset.corrupted_files := [];
                 DebugDataset.checked_files := [] |}) as [-> ->].
  cbn [DebugDataset.checked_files DebugDataset.corrupted_files List.length
       Nat.add].
  repeat split. lia.
Qed.

(** X18. The two scripts test a file in the same way except for the sample
    rate: whatever [quick_audio_fix.py] accepts, [debug_dataset.py] accepts
    with the same message, and the two differ exactly on a file that is
    read with at least one frame and a sample rate that is not positive. *)
Theorem check_audio_file_siblings (file_path : str) :
  (fst (QuickAudioFix.check_audio_file sf_read file_path) = true ->
   DebugDataset.check_audio_file sf_read file_path
   = QuickAudioFix.check_audio_file sf_read file_path) /\
  (DebugDataset.check_audio_file sf_read file_path
   <> QuickAudioFix.check_audio_file sf_read file_path <->
   exists frames sr,
     sf_read file_path = ReadOk frames sr /\ frames <> 0 /\ (sr <= 0)%Z) /\
  (fst (QuickAudioFix.check_audio_file sf_read file_path) = true <->
   exists frames sr,
     sf_read file_path = ReadOk frames sr /\ frames <> 0 /\ (0 < sr)%Z).
Proof.
  unfold DebugDataset.check_audio_file, QuickAudioFix.check_audio_file.
  destruct (sf_read file_path) as [frames sr | message].
  - destruct (Nat.eqb frames 0) eqn:Ef.
    + apply Nat.eqb_eq in Ef. split; [discriminate | split]; split.
      * intros H. congruence.
      * intros (f & r & [= <- <-] & Hne & _). congruence.
      * discriminate.
      * intros (f & r & [= <- <-] & Hne & _). congruence.
    + apply Nat.eqb_neq in Ef. destruct (sr <=? 0)%Z eqn:Es.
      * apply Z.leb_le in Es. split; [discriminate | split]; split.
        -- intros _. exists frames, sr. auto.
        -- intros _. discriminate.
        -- discriminate.
        -- intros (f & r & [= <- <-] & _ & Hpos). lia.
      * apply Z.leb_gt in Es. split; [reflexivity | split]; split.
        -- intros H. congruence.
        -- intros (f & r & [= <- <-] & _ & Hle). lia.
        -- intros _. exists frames, sr. auto.
        -- reflexivity.
  - split; [discriminate | split]; split.
    + intros H. congruence.
    + intros (f & r & H & _). discriminate H.
    + discriminate.
    + intros (f & r & H & _). discriminate H.
Qed.

End CheckDataset.

Lemma check_dataset_files_outcome_witness :
  DebugDataset.check_dataset_files (fun _ => true) (fun _ => ReadOk 3 16000)
    [lit "a.wav|x|1"] 0
  = Raised ZeroDivisionError /\
  DebugDataset.check_dataset_files (fun _ => true) (fun _ => ReadOk 0 16000)
    [lit "a.wav|x|1"] 100
  = Returned [(lit "a.wav", lit "Empty audio file")].
Proof.
  split.
  - apply (proj2 (proj2 (check_dataset_files_outcome (fun _ => true)
                           (fun _ => ReadOk 3 16000) [lit "a.wav|x|1"] 0))).
    left. reflexivity.
  - rewrite (proj1 (proj2 (check_dataset_files_outcome (fun _ => true)
                             (fun _ => ReadOk 0 16000) [lit "a.wav|x|1"] 100))).
    + reflexivity.
    + exists (lit "a.wav|x|1"). split; [left; reflexivity | reflexivity].
Defined.

Lemma check_audio_file_siblings_witness :
  DebugDataset.check_audio_file (fun _ => ReadOk 5 16000) (lit "a.wav")
  = QuickAudioFix.check_audio_file (fun _ => ReadOk 5 16000) (lit "a.wav") /\
  DebugDataset.check_audio_file (fun _ => ReadOk 5 0) (lit "a.wav")
  <> QuickAudioFix.check_audio_file (fun _ => ReadOk 5 0) (lit "a.wav").
Proof.
  split.
  - apply (proj1 (check_audio_file_siblings (fun _ => ReadOk 5 16000)
                    (lit "a.wav"))). reflexivity.
  - apply (proj2 (proj1 (proj2 (check_audio_file_siblings
                                  (fun _ => ReadOk 5 0) (lit "a.wav"))))).
    exists 5, 0%Z. repeat split; [discriminate | lia].
Defined.

(* ================================================================== *)
(** ** Arabic script and Buckwalter input *)

(** X19. A text in Arabic script and its Buckwalter transliteration give
    the same words, the same symbols and the same output. *)
Theorem buckwalter_input_equivalent (s : str) :
  utterance_phonemes (arabic_to_buckwalter s) = utterance_phonemes s /\
  process_utterance (PyStr (arabic_to_buckwalter s))
  = process_utterance (PyStr s).
Proof.
  assert (E : utterance_phonemes (arabic_to_buckwalter s)
              = utterance_phonemes s).
  { unfold utterance_phonemes. cbv zeta.
    rewrite (arabic_to_buckwalter_fixed (arabic_to_buckwalter s))
      by apply arabic_to_buckwalter_not_keys.
    reflexivity. }
  split; [exact E|].
  destruct (process_utterance_str (arabic_to_buckwalter s)) as [_ ->].
  destruct (process_utterance_str s) as [_ ->].
  rewrite E. reflexivity.
Qed.

(** The numerator of the success rate of [check_dataset_files] on a
    manifest of one valid file and two missing ones. *)
Lemma check_dataset_files_counts_witness :
  let st := DebugDataset.run_loop (fun p => str_eqb p (lit "a.wav"))
              (fun _ => ReadOk 3 16000)
              [lit "a.wav|x|1"; lit "b.wav|y|2"; lit "c.wav|z|3"] 100 in
  (Z.of_nat (List.length (DebugDataset.checked_files st))
   - Z.of_nat (List.length (DebugDataset.corrupted_files st)) = -1)%Z.
Proof.
  cbv zeta.
  rewrite (proj2 (proj2 (check_dataset_files_counts
                           (fun p => str_eqb p (lit "a.wav"))
                           (fun _ => ReadOk 3 16000)
                           [lit "a.wav|x|1"; lit "b.wav|y|2"; lit "c.wav|z|3"]
                           100))).
  vm_compute. reflexivity.
Defined.

(* ================================================================== *)
(** ** The tokenizer loop ends *)

(** X20. The [while] loop of [process_word_simple] ends after at most
    [len(buckwalter_word)] iterations, whatever the word, and more
    iterations allowed do not change the units it has collected. *)
Theorem tokenizer_loop_terminates (buckwalter_word : str) (fuel : nat) :
  List.length buckwalter_word <= fuel ->
  tokenizer_loop fuel buckwalter_word 0 []
  = Some (extract_phonemes buckwalter_word) /\
  tokenizer_loop fuel buckwalter_word 0 []
  = tokenizer_loop (List.length buckwalter_word) buckwalter_word 0 [].
Proof.
  intros H.
  pose proof (tokenizer_loop_from fuel [] buckwalter_word [] H) as E1.
  pose proof (tokenizer_loop_from (List.length buckwalter_word) []
                buckwalter_word [] (Nat.le_refl _)) as E2.
  simpl in E1, E2. rewrite E1, E2. split; reflexivity.
Qed.

Lemma tokenizer_loop_terminates_witness :
  tokenizer_loop 9 (lit "$krAaa") 0 []
  = Some [lit "$"; lit "k"; lit "r"; lit "aa"; lit "aa"].
Proof.
  rewrite (proj1 (tokenizer_loop_terminates (lit "$krAaa") 9
                    ltac:(vm_compute; lia))).
  reflexivity.
Defined.
